(** * Feature Store introduction notebook: the readiness poll, the event-time
    column and the batch-ingest contract.

    The notebook [sagemaker-featurestore/feature_store_introduction.ipynb]
    sequences calls to a remote feature store.  Three pieces of client-side
    behaviour are embedded here:

    - [Poller]: the notebook's [check_feature_group_status] loop;
    - [Frame]: the cell that appends the [EventTime] column to the two data
      frames, and the cell that reads the clock before it;
    - [BatchIngestor]: the contract of [FeatureGroup.ingest], which the
      notebook only calls. *)

From Stdlib Require Import ZArith Lia.
From Stdlib Require Import Floats.SpecFloat.
From stdpp Require Import gmap strings list.

Open Scope string_scope.
Open Scope list_scope.

(* ===================================================================== *)
(** * The readiness poller                                                *)
(* ===================================================================== *)

Module Poller.

(** What one call of [feature_group.describe()] returns: a dict from field
    names to values.  [.get("FeatureGroupStatus")] is a lookup that yields
    Python's [None] when the key is absent. *)
Abbreviation response := (gmap string string).

(** The remote service as the poller sees it: the answer to the k-th
    [describe()] call made on the feature group (k = 0 for the first). *)
Definition service := nat -> response.

(** Everything the function does that can be observed from outside. *)
Inductive event :=
  | Describe
  | Print (msg : string)
  | Sleep (secs : Z).

#[global] Instance event_eq_dec : EqDecision event.
Proof. solve_decision. Defined.

(** The world threaded through the function: how many [describe()] calls
    were made so far, and the events in the order they happened. *)
Record world := World { fetches : nat; log : list event }.

Definition world0 : world := World 0 [].

Record feature_group := FeatureGroup { name : string; remote : service }.

(** [feature_group.describe().get("FeatureGroupStatus")] *)
Definition describe_status (fg : feature_group) (w : world)
  : option string * world :=
  (remote fg (fetches w) !! "FeatureGroupStatus",
   World (S (fetches w)) (log w ++ [Describe])).

Definition print (msg : string) (w : world) : world :=
  World (fetches w) (log w ++ [Print msg]).

(** [time.sleep(secs)] *)
Definition sleep (secs : Z) (w : world) : world :=
  World (fetches w) (log w ++ [Sleep secs]).

Definition waiting_message : string :=
  "Waiting for Feature Group to be Created".

(** [f"FeatureGroup {feature_group.name} successfully created."] *)
Definition success_message (fg : feature_group) : string :=
  "FeatureGroup " +:+ name fg +:+ " successfully created.".

(** [status == "Creating"]; a status of [None] is not equal to it. *)
Definition is_creating (status : option string) : bool :=
  bool_decide (status = Some "Creating").

(** One pass through the body of the [while] loop. *)
Definition loop_body (fg : feature_group) (w : world)
  : option string * world :=
  let w1 := print waiting_message w in
  let w2 := sleep 5 w1 in
  describe_status fg w2.

(** [while status == "Creating": ...].  The loop has no bound of its own;
    [fuel] bounds the number of passes the model follows, and [None] says
    the loop was still running when the fuel ran out. *)
Fixpoint while_creating (fuel : nat) (fg : feature_group)
    (status : option string) (w : world) : option (option string * world) :=
  if is_creating status then
    match fuel with
    | O => None
    | S fuel' =>
        let '(status', w') := loop_body fg w in
        while_creating fuel' fg status' w'
    end
  else Some (status, w).

(** [def check_feature_group_status(feature_group)].  The function has no
    [raise] and no [return]: when the loop ends, it prints the success
    message and returns. *)
Definition check_feature_group_status (fuel : nat) (fg : feature_group)
    (w : world) : option world :=
  let '(status, w1) := describe_status fg w in
  match while_creating fuel fg status w1 with
  | None => None
  | Some (_, w2) => Some (print (success_message fg) w2)
  end.

(** ** Scripts: services that answer a given list of statuses first *)

Definition status_response (s : string) : response :=
  {[ "FeatureGroupStatus" := s ]}.

Definition script (l : list string) (rest : service) : service :=
  fun k =>
    match l !! k with
    | Some s => status_response s
    | None => rest (k - length l)
    end.

(** ** What is counted in a log *)

Definition is_describe (e : event) : bool :=
  match e with Describe => true | _ => false end.
Definition is_sleep (e : event) : bool :=
  match e with Sleep _ => true | _ => false end.
Definition is_progress (e : event) : bool :=
  bool_decide (e = Print waiting_message).

Definition count (p : event -> bool) (l : list event) : nat :=
  length (List.filter p l).

(** The sleeps of a log, with their durations. *)
Definition sleeps (l : list event) : list Z :=
  omap (fun e => match e with Sleep s => Some s | _ => None end) l.

(** The function reports success when the last thing it did was to print
    the success message. *)
Definition reports_success (fg : feature_group) (w : world) : Prop :=
  last (log w) = Some (Print (success_message fg)).

(** The function terminates on [fg] from [w] when some amount of fuel lets
    it return. *)
Definition terminates (fg : feature_group) (w : world) : Prop :=
  exists fuel w', check_feature_group_status fuel fg w = Some w'.

(** The status the k-th [describe()] call yields. *)
Definition status_at (fg : feature_group) (k : nat) : option string :=
  remote fg k !! "FeatureGroupStatus".

End Poller.

(* ===================================================================== *)
(** * Data frames and the event-time column                               *)
(* ===================================================================== *)

Module Frame.

(** A cell of a data frame: an integer, a float64 or a string (object). *)
Inductive value :=
  | VInt (z : Z)
  | VFloat (f : spec_float)
  | VStr (s : string).

Definition NaN : value := VFloat S754_nan.

(** The float64 nearest to a Python int (what [dtype="float64"] makes of
    it), rounding to nearest even. *)
Definition float64_of_int (z : Z) : spec_float :=
  binary_normalize 53 1024 z 0 false.

(** A series: row labels and the values at them. *)
Record Series := mkSeries { s_index : list nat; s_values : list value }.

(** A data frame: row labels, and the columns in their order, each with its
    name and one value per row label. *)
Record DataFrame := mkFrame {
  index : list nat;
  columns : list (string * list value)
}.

(** [len(df)]: the number of rows. *)
Definition len (df : DataFrame) : nat := length (index df).

(** [df.columns] *)
Definition column_names (df : DataFrame) : list string := (columns df).*1.

(** [pd.Series(data, dtype="float64")] for a list of Python ints: the
    default index 0, 1, ..., and every entry cast to float64. *)
Definition Series_float64 (data : list Z) : Series :=
  mkSeries (seq 0 (length data)) ((VFloat ∘ float64_of_int) <$> data).

(** The value a series holds at a row label; NaN when it has none.  (The
    series built here label their values 0, 1, ..., each label once.) *)
Definition series_at (s : Series) (lbl : nat) : value :=
  match list_find (eq lbl) (s_index s) with
  | Some (i, _) => default NaN (s_values s !! i)
  | None => NaN
  end.

(** [series.reindex(idx)]: the series aligned on the labels [idx]. *)
Definition reindex (s : Series) (idx : list nat) : list value :=
  series_at s <$> idx.

(** [df[key] = series].  The series is aligned on the frame's row labels.
    A frame with no rows takes the labels of a series that has some, its
    columns filled with NaN.  Then the values replace every column named
    [key], where there is one, and otherwise become a new last column. *)
Definition setitem (df : DataFrame) (key : string) (s : Series) : DataFrame :=
  let df :=
    if bool_decide (index df = [] /\ s_values s <> []) then
      mkFrame (s_index s)
              ((fun c => (c.1, replicate (length (s_index s)) NaN))
                 <$> columns df)
    else df in
  let vals := reindex s (index df) in
  if bool_decide (key ∈ column_names df) then
    mkFrame (index df)
            ((fun c => if bool_decide (c.1 = key) then (key, vals) else c)
               <$> columns df)
  else mkFrame (index df) (columns df ++ [(key, vals)]).

(** [df[key]] as a list of values: the first column of that name. *)
Definition column (df : DataFrame) (key : string) : option (list value) :=
  snd <$> (snd <$> list_find (fun c => c.1 = key) (columns df)).

(** The value of column [key] at row position [i]. *)
Definition cell (df : DataFrame) (key : string) (i : nat) : option value :=
  column df key ≫= (fun vs => vs !! i).

(** A CSV file as [pd.read_csv] parses it: the number of data rows, and
    the named columns with their parsed values. *)
Record csv := mkCsv { csv_rows : nat; csv_columns : list (string * list value) }.

(** [pd.read_csv(path)] (no [index_col]): the rows are labelled
    0, 1, ..., n-1. *)
Definition read_csv (file : csv) : DataFrame :=
  mkFrame (seq 0 (csv_rows file)) (csv_columns file).

(** ** The notebook's cells *)

(** The clock: the whole seconds that the k-th evaluation of
    [int(round(time.time()))] yields. *)
Definition clock := nat -> Z.

(** The notebook's variables that the cells below read or write, and the
    number of times the clock was read. *)
Record notebook := mkNotebook {
  customer_data : DataFrame;
  orders_data : DataFrame;
  current_time_sec : option Z;
  clock_reads : nat
}.

(** [customer_data = pd.read_csv(...)] and [orders_data = pd.read_csv(...)],
    in a fresh notebook. *)
Definition cell_read_csv (customer_csv orders_csv : csv) : notebook :=
  mkNotebook (read_csv customer_csv) (read_csv orders_csv) None 0.

(** [current_time_sec = int(round(time.time()))] *)
Definition cell_current_time (clk : clock) (nb : notebook) : notebook :=
  mkNotebook (customer_data nb) (orders_data nb)
             (Some (clk (clock_reads nb))) (S (clock_reads nb)).

(** [df["EventTime"] = pd.Series([t]*len(df), dtype="float64")] *)
Definition append_event_time (t : Z) (df : DataFrame) : DataFrame :=
  setitem df "EventTime" (Series_float64 (replicate (len df) t)).

(** The cell that appends the column to both frames.  It fails (NameError)
    when [current_time_sec] was never assigned. *)
Definition cell_append_event_time (nb : notebook) : option notebook :=
  t ← current_time_sec nb;
  Some (mkNotebook (append_event_time t (customer_data nb))
                   (append_event_time t (orders_data nb))
                   (current_time_sec nb) (clock_reads nb)).

(** The cells in the notebook's order, up to the ingestion. *)
Definition run_cells (clk : clock) (customer_csv orders_csv : csv)
  : option notebook :=
  cell_append_event_time
    (cell_current_time clk (cell_read_csv customer_csv orders_csv)).

End Frame.

(* ===================================================================== *)
(** * The batch ingestor                                                  *)
(* ===================================================================== *)

Module BatchIngestor.

(** Modelled from the spec: the lifecycle status of a feature group
    (section 3).  [FeatureGroup.ingest] and everything below it belong to
    the SDK the notebook imports; the notebook only calls
    [ingest(data_frame=..., max_workers=3, wait=True)]. *)
Inductive status := Creating | Created | Deleting | Deleted | Failed.

#[global] Instance status_eq_dec : EqDecision status.
Proof. solve_decision. Defined.

(** Modelled from the spec: the inferred type of a feature (section 3). *)
Inductive feature_type := Integral | Fractional | String.

(** Modelled from the spec: the FeatureGroupDescriptor of section 3, with
    the last status the client observed. *)
Record FeatureGroupDescriptor := mkDescriptor {
  fg_name : string;
  record_identifier_name : string;
  event_time_name : string;
  feature_definitions : list (string * feature_type);
  fg_status : status
}.

(** Modelled from the spec: a Record is an ordered list of (feature name,
    value) pairs (section 3); a value that is missing is [None]. *)
Definition record := list (string * option string).

(** Modelled from the spec: the errors one row can end in (section 7): a
    malformed Record, a group that is not Created (section 3's invariant),
    or the error the put-record operation answered. *)
Inductive row_error :=
  | ValidationError (what : string)
  | NotCreated (s : status)
  | PutRecordError (msg : string).

#[global] Instance row_error_eq_dec : EqDecision row_error.
Proof. solve_decision. Defined.

(** Modelled from the spec: what the batch ingest returns (section 4.2):
    success, or the list of (row index, error) pairs. *)
Inductive ingest_result :=
  | Ingested
  | PartialIngestFailure (failures : list (nat * row_error)).

(** Modelled from the spec: the values a Record holds for a feature name,
    missing ones left out. *)
Definition values_of (feature : string) (r : record) : list string :=
  omap (fun p => if bool_decide (p.1 = feature) then p.2 else None) r.

(** Modelled from the spec: validation of a Record before submission
    (sections 3 and 7): exactly one value for the record identifier, and
    an event-time value. *)
Definition validate (g : FeatureGroupDescriptor) (r : record)
  : option row_error :=
  if bool_decide (length (values_of (record_identifier_name g) r) ≠ 1)
  then Some (ValidationError "record identifier")
  else if bool_decide (values_of (event_time_name g) r = [])
  then Some (ValidationError "event time")
  else None.

(** Modelled from the spec: the sizes of the contiguous shards (section
    4.2 fixes their number and that they are contiguous): the rows are
    dealt out in runs of ceil(n / w). *)
Definition batch_size (n w : nat) : nat := (n + w - 1) / w.

(** Modelled from the spec: the bounds [start, end) of shard [i]. *)
Definition shard_bounds (n w i : nat) : nat * nat :=
  let b := batch_size n w in
  ((i * b) `min` n, (i * b + b) `min` n).

Section Ingest.

(** The row type of the dataset and its conversion to a Record, and the
    put-record operation of the remote service: (group name, record) to
    success ([None]) or an error. *)
Context {Row : Type}.
Variable to_record : Row -> record.
Variable put_record : string -> record -> option string.

(** Modelled from the spec: shard [i] of a dataset for [w] workers: the
    index of its first row, and its rows (section 4.2). *)
Definition shard (D : list Row) (w i : nat) : nat * list Row :=
  let '(s, e) := shard_bounds (length D) w i in
  (s, take (e - s) (drop s D)).

(** Modelled from the spec: the shards of a dataset for [w] workers, one
    per worker (section 4.2). *)
Definition shards (D : list Row) (w : nat) : list (nat * list Row) :=
  shard D w <$> seq 0 w.

(** Modelled from the spec: the state the ingestion threads: the failure
    collector of section 5, and the put-record calls made so far, in
    order. *)
Record state := mkState {
  failures : list (nat * row_error);
  put_calls : list (string * record)
}.

(** Modelled from the spec: submission of one Record (sections 3, 6, 7).
    A malformed Record is rejected before submission; a Record for a group
    that is not Created is rejected; otherwise put-record is called.  The
    result is the row's error, if any, and the put-record calls made. *)
Definition submit (g : FeatureGroupDescriptor) (r : record)
  : option row_error * list (string * record) :=
  match validate g r with
  | Some e => (Some e, [])
  | None =>
      if bool_decide (fg_status g = Created)
      then (PutRecordError <$> put_record (fg_name g) r, [(fg_name g, r)])
      else (Some (NotCreated (fg_status g)), [])
  end.

(** Modelled from the spec: one worker on its shard (section 4.2): every
    row is converted and submitted in row order; a failure is collected
    with the row's index and the worker goes on. *)
Fixpoint ingest_shard (g : FeatureGroupDescriptor) (i : nat)
    (rows : list Row) (st : state) : state :=
  match rows with
  | [] => st
  | row :: rest =>
      let '(err, calls) := submit g (to_record row) in
      ingest_shard g (S i) rest
        (mkState
           (match err with
            | Some e => failures st ++ [(i, e)]
            | None => failures st
            end)
           (put_calls st ++ calls))
  end.

(** Modelled from the spec: the batch ingest with [wait] set (section
    4.2).  The workers are followed one after the other, in the order of
    their shards.  The operation fails when the list of failed rows is not
    empty, and then surfaces the list. *)
Definition ingest (g : FeatureGroupDescriptor) (D : list Row) (w : nat)
  : ingest_result * list (string * record) :=
  let st := foldl (fun st sh => ingest_shard g sh.1 sh.2 st)
                  (mkState [] []) (shards D w) in
  (match failures st with
   | [] => Ingested
   | fs => PartialIngestFailure fs
   end,
   put_calls st).

(** Modelled from the spec: the error one row ends in, if any. *)
Definition row_outcome (g : FeatureGroupDescriptor) (row : Row)
  : option row_error :=
  (submit g (to_record row)).1.

(** Modelled from the spec: the (row index, error) pairs of section 4.2
    for a run of rows whose first has index [i]. *)
Fixpoint failed_rows (g : FeatureGroupDescriptor) (i : nat)
    (rows : list Row) : list (nat * row_error) :=
  match rows with
  | [] => []
  | row :: rest =>
      match row_outcome g row with
      | Some e => (i, e) :: failed_rows g (S i) rest
      | None => failed_rows g (S i) rest
      end
  end.

(** Modelled from the spec: a Record reaches the put-record operation when
    it is well-formed and the group is Created. *)
Definition reaches_put (g : FeatureGroupDescriptor) (r : record) : bool :=
  bool_decide (validate g r = None) && bool_decide (fg_status g = Created).

End Ingest.

End BatchIngestor.

(* ===================================================================== *)
(** * The other cells of the notebook                                     *)
(* ===================================================================== *)

Module Cells.
Import Stdlib.Strings.Ascii.
Import Poller.

(** ** The cell that waits for both feature groups *)

(** [check_feature_group_status(customers_feature_group)] followed by
    [check_feature_group_status(orders_feature_group)].  Each group counts
    its own [describe()] calls from 0; the log goes on from [log0].  The
    result is the world after the first call and the world after the
    second. *)
Definition cell_check_status (fuel : nat)
    (customers_feature_group orders_feature_group : feature_group)
    (log0 : list event) : option (world * world) :=
  match check_feature_group_status fuel customers_feature_group
          (World 0 log0) with
  | None => None
  | Some w1 =>
      match check_feature_group_status fuel orders_feature_group
              (World 0 (log w1)) with
      | None => None
      | Some w2 => Some (w1, w2)
      end
  end.

(** ** The cell that names the feature groups *)

(** [time.struct_time], as [gmtime()] returns it. *)
Record struct_time := mkTime {
  tm_year : nat; tm_mon : nat; tm_mday : nat;
  tm_hour : nat; tm_min : nat; tm_sec : nat;
  tm_wday : nat; tm_yday : nat; tm_isdst : nat
}.

(** The ranges of the fields [strftime] reads here. *)
Definition in_range (t : struct_time) : Prop :=
  1 <= tm_mon t <= 12 /\ 1 <= tm_mday t <= 31
  /\ tm_hour t < 24 /\ tm_min t < 60 /\ tm_sec t < 62.

Definition digit (d : nat) : Ascii.ascii := Ascii.ascii_of_nat (48 + d).

(** A field below 100 as two decimal digits, zero-padded. *)
Definition two_digits (n : nat) : string :=
  String (digit (n / 10)) (String (digit (n mod 10)) EmptyString).

(** One conversion of [strftime]; [None] for those left out here. *)
Definition directive (c : Ascii.ascii) (t : struct_time) : option string :=
  if bool_decide (c = "d"%char) then Some (two_digits (tm_mday t))
  else if bool_decide (c = "H"%char) then Some (two_digits (tm_hour t))
  else if bool_decide (c = "M"%char) then Some (two_digits (tm_min t))
  else if bool_decide (c = "S"%char) then Some (two_digits (tm_sec t))
  else if bool_decide (c = "m"%char) then Some (two_digits (tm_mon t))
  else if bool_decide (c = "%"%char) then Some "%"
  else None.

(** [strftime(fmt, t)]: a percent sign and the next character are a
    conversion, every other character stands for itself. *)
Fixpoint strftime (fmt : string) (t : struct_time) : option string :=
  match fmt with
  | EmptyString => Some EmptyString
  | String a rest =>
      if bool_decide (a = "%"%char) then
        match rest with
        | EmptyString => None
        | String c rest' =>
            match directive c t, strftime rest' t with
            | Some d, Some r => Some (d +:+ r)
            | _, _ => None
            end
        end
      else
        match strftime rest t with
        | Some r => Some (String a r)
        | None => None
        end
  end.

(** ['customers-feature-group-' + strftime('%d-%H-%M-%S', gmtime())] *)
Definition customers_feature_group_name (now : struct_time) : option string :=
  (fun s => "customers-feature-group-" +:+ s) <$> strftime "%d-%H-%M-%S" now.

(** ['orders-feature-group-' + strftime('%d-%H-%M-%S', gmtime())] *)
Definition orders_feature_group_name (now : struct_time) : option string :=
  (fun s => "orders-feature-group-" +:+ s) <$> strftime "%d-%H-%M-%S" now.

End Cells.

(* ===================================================================== *)
(** * Properties of the readiness poller                                  *)
(* ===================================================================== *)

Module PollerTheory.
Import Poller.

(** One pass of the loop, as a change of the world. *)
Definition pass (w : world) : world :=
  World (S (fetches w)) (log w ++ [Print waiting_message; Sleep 5; Describe]).

(** The first [describe()] call of the function. *)
Definition first_fetch (w : world) : world :=
  World (S (fetches w)) (log w ++ [Describe]).

(** The status the loop tests on its j-th test: the one it was entered
    with, then the ones fetched from the service. *)
Definition tested (fg : feature_group) (status : option string) (w : world)
    (j : nat) : option string :=
  match j with
  | O => status
  | S j' => status_at fg (fetches w + j')
  end.

Lemma loop_body_eq fg w :
  loop_body fg w = (status_at fg (fetches w), pass w).
Proof.
  unfold loop_body, describe_status, print, sleep, pass, status_at. simpl.
  by rewrite <- !app_assoc.
Qed.

Lemma iter_pass_shift n w : Nat.iter n pass (pass w) = Nat.iter (S n) pass w.
Proof. induction n as [|n IH]; simpl in *; congruence. Qed.

Lemma fetches_iter_pass n w : fetches (Nat.iter n pass w) = fetches w + n.
Proof. induction n as [|n IH]; simpl; [lia | rewrite IH; lia]. Qed.

Lemma tested_pass fg status w j :
  tested fg (status_at fg (fetches w)) (pass w) j = tested fg status w (S j).
Proof.
  destruct j as [|j]; simpl; [by rewrite Nat.add_0_r |].
  f_equal. lia.
Qed.

Lemma while_creating_stop fg fuel status w :
  is_creating status = false ->
  while_creating fuel fg status w = Some (status, w).
Proof. intros H. destruct fuel; simpl; by rewrite H. Qed.

Lemma while_creating_step fg fuel status w :
  is_creating status = true ->
  while_creating (S fuel) fg status w
  = while_creating fuel fg (status_at fg (fetches w)) (pass w).
Proof.
  intros H. change (while_creating (S fuel) fg status w)
    with (if is_creating status
          then let '(status', w') := loop_body fg w in
               while_creating fuel fg status' w'
          else Some (status, w)).
  by rewrite H, loop_body_eq.
Qed.

Lemma while_creating_0 fg status w :
  is_creating status = true -> while_creating 0 fg status w = None.
Proof. intros H. simpl. by rewrite H. Qed.

(** Enough fuel: the loop makes exactly [n] passes when the first [n]
    statuses it tests are "Creating" and the next one is not. *)
Lemma while_creating_run fg n : forall fuel status w,
  n <= fuel ->
  (forall j, j < n -> is_creating (tested fg status w j) = true) ->
  is_creating (tested fg status w n) = false ->
  while_creating fuel fg status w
  = Some (tested fg status w n, Nat.iter n pass w).
Proof.
  induction n as [|n IH]; intros fuel status w Hfuel Hpre Hstop.
  - by apply while_creating_stop.
  - destruct fuel as [|fuel]; [lia |].
    rewrite while_creating_step by (apply (Hpre 0); lia).
    rewrite (IH fuel (status_at fg (fetches w)) (pass w)).
    + by rewrite (tested_pass fg status), iter_pass_shift.
    + lia.
    + intros j Hj. rewrite (tested_pass fg status). apply Hpre. lia.
    + by rewrite (tested_pass fg status).
Qed.

(** Whatever the fuel: a loop that ended made some number [n] of passes,
    saw "Creating" on its first [n] tests and something else on the next. *)
Lemma while_creating_inv fg : forall fuel status w st w',
  while_creating fuel fg status w = Some (st, w') ->
  exists n, n <= fuel
    /\ (forall j, j < n -> is_creating (tested fg status w j) = true)
    /\ is_creating (tested fg status w n) = false
    /\ st = tested fg status w n /\ w' = Nat.iter n pass w.
Proof.
  induction fuel as [|fuel IH]; intros status w st w' Hrun.
  - destruct (is_creating status) eqn:Hc.
    { by rewrite while_creating_0 in Hrun. }
    rewrite while_creating_stop in Hrun by done.
    injection Hrun as <- <-. exists 0. repeat split; [lia | lia | done].
  - destruct (is_creating status) eqn:Hc.
    + rewrite while_creating_step in Hrun by done.
      destruct (IH _ _ _ _ Hrun) as (n & Hn & Hpre & Hstop & -> & ->).
      exists (S n). rewrite !(tested_pass fg status) in *.
      rewrite iter_pass_shift. repeat split; try done; [lia |].
      intros [|j] Hj; [done |].
      rewrite <- (tested_pass fg status). apply Hpre. lia.
    + rewrite while_creating_stop in Hrun by done.
      injection Hrun as <- <-. exists 0. repeat split; [lia | lia | done].
Qed.

Lemma tested_first fg w j :
  tested fg (status_at fg (fetches w)) (first_fetch w) j
  = status_at fg (fetches w + j).
Proof.
  destruct j as [|j]; simpl; [by rewrite Nat.add_0_r |].
  f_equal. lia.
Qed.

(** The function, with enough fuel. *)
Lemma check_run fg w n fuel :
  n <= fuel ->
  (forall j, j < n -> is_creating (status_at fg (fetches w + j)) = true) ->
  is_creating (status_at fg (fetches w + n)) = false ->
  check_feature_group_status fuel fg w
  = Some (print (success_message fg) (Nat.iter n pass (first_fetch w))).
Proof.
  intros Hfuel Hpre Hstop. unfold check_feature_group_status, describe_status.
  fold (status_at fg (fetches w)). fold (first_fetch w).
  rewrite (while_creating_run fg n); [done | done | |].
  - intros j Hj. rewrite tested_first. by apply Hpre.
  - by rewrite tested_first.
Qed.

(** The function, whatever the fuel, when it returned. *)
Lemma check_inv fg w fuel w' :
  check_feature_group_status fuel fg w = Some w' ->
  exists n, n <= fuel
    /\ (forall j, j < n -> is_creating (status_at fg (fetches w + j)) = true)
    /\ is_creating (status_at fg (fetches w + n)) = false
    /\ w' = print (success_message fg) (Nat.iter n pass (first_fetch w)).
Proof.
  unfold check_feature_group_status, describe_status.
  fold (status_at fg (fetches w)). fold (first_fetch w).
  destruct (while_creating _ _ _ _) as [[st w2]|] eqn:Hloop; [|done].
  intros [= <-].
  destruct (while_creating_inv _ _ _ _ _ _ Hloop)
    as (n & Hn & Hpre & Hstop & -> & ->).
  exists n. repeat split; try done.
  - intros j Hj. rewrite <- tested_first. by apply Hpre.
  - by rewrite <- tested_first.
Qed.

(** ** Logs and counts *)

Definition pass_events : list event :=
  [Print waiting_message; Sleep 5; Describe].

Lemma log_iter_pass n w :
  log (Nat.iter n pass w) = log w ++ concat (replicate n pass_events).
Proof.
  induction n as [|n IH]; simpl; [by rewrite app_nil_r |].
  rewrite IH, <- app_assoc. f_equal.
  change (pass_events ++ concat (replicate n pass_events))
    with (concat (replicate (S n) pass_events)).
  rewrite <- (concat_app _ [pass_events]). simpl.
  change [pass_events] with (replicate 1 pass_events).
  rewrite <- replicate_add. by replace (n + 1) with (S n) by lia.
Qed.

Lemma count_app p l1 l2 : count p (l1 ++ l2) = count p l1 + count p l2.
Proof. unfold count. by rewrite List.filter_app, length_app. Qed.

Lemma count_cons p e l :
  count p (e :: l) = (if p e then 1 else 0) + count p l.
Proof. unfold count. simpl. by destruct (p e). Qed.

Lemma count_passes p n :
  count p (concat (replicate n pass_events)) = n * count p pass_events.
Proof.
  induction n as [|n IH]; [done |].
  change (concat (replicate (S n) pass_events))
    with (pass_events ++ concat (replicate n pass_events)).
  rewrite count_app, IH. lia.
Qed.

Lemma sleeps_passes n :
  sleeps (concat (replicate n pass_events)) = replicate n 5%Z.
Proof. induction n as [|n IH]; [done |]. simpl. by f_equal. Qed.

Lemma success_is_not_progress fg :
  is_progress (Print (success_message fg)) = false.
Proof. apply bool_decide_eq_false. intros [=]. Qed.

(** The log of a run that returned after [n] passes. *)
Lemma log_of_run fg n w :
  log (print (success_message fg) (Nat.iter n pass (first_fetch w)))
  = log w ++ (Describe :: concat (replicate n pass_events)
                ++ [Print (success_message fg)]).
Proof.
  unfold print. simpl. rewrite log_iter_pass. simpl.
  by rewrite <- !app_assoc.
Qed.

(** ** Scripts *)

Lemma status_at_script nm l rest k s :
  l !! k = Some s -> status_at (FeatureGroup nm (script l rest)) k = Some s.
Proof.
  intros H. unfold status_at, script. simpl. rewrite H.
  apply lookup_singleton_eq.
Qed.

Lemma is_creating_true status :
  is_creating status = true <-> status = Some "Creating".
Proof. unfold is_creating. apply bool_decide_eq_true. Qed.

Lemma is_creating_false status :
  is_creating status = false <-> status <> Some "Creating".
Proof. unfold is_creating. apply bool_decide_eq_false. Qed.

(** The first index at which a boolean sequence is false, when there is
    one up to [k]. *)
Lemma first_false (f : nat -> bool) k :
  (forall j, j < k -> f j = true)
  \/ exists n, n < k /\ f n = false /\ forall j, j < n -> f j = true.
Proof.
  induction k as [|k [IH|(n & Hn & Hf & Hlt)]].
  - left. lia.
  - destruct (f k) eqn:Hk.
    + left. intros j Hj. destruct (decide (j = k)) as [->|]; [done |].
      apply IH. lia.
    + right. exists k. auto.
  - right. exists n. split; [lia | done].
Qed.

(** ** The claims about the poller *)

(** C1, evaluated on the code.  On the status sequence [Creating, Failed]
    the poller sleeps exactly once, for 5 time units, and then prints the
    success message and returns: the status "Failed" is treated like
    "Created", and no error is surfaced. *)
Theorem poll_creating_failed_reports_success nm rest fuel :
  let fg := FeatureGroup nm (script ["Creating"; "Failed"] rest) in
  check_feature_group_status (1 + fuel) fg world0
  = Some (World 2 [Describe;
                   Print waiting_message; Sleep 5; Describe;
                   Print (success_message fg)]).
Proof.
  intros fg. rewrite (check_run fg world0 1); [done | lia | |].
  - intros j Hj. replace j with 0 by lia.
    apply is_creating_true. by apply status_at_script.
  - apply is_creating_false. unfold fg.
    by rewrite (status_at_script nm _ rest 1 "Failed").
Qed.

(** Every run of the poller that returns ends by printing the success
    message, whatever status ended the loop. *)
Lemma returns_only_with_success fg fuel w w' :
  check_feature_group_status fuel fg w = Some w' -> reports_success fg w'.
Proof.
  intros Hrun. destruct (check_inv _ _ _ _ Hrun) as (n & _ & _ & _ & ->).
  unfold reports_success. rewrite log_of_run.
  rewrite app_comm_cons, !app_assoc. apply last_snoc.
Qed.

(** C2.  On the status sequence [Creating, Creating, Created] the poller
    fetches the status three times, sleeps exactly twice, each time for
    the fixed interval of 5 time units, and then reports success. *)
Theorem poll_creating_creating_created nm rest fuel :
  let fg := FeatureGroup nm (script ["Creating"; "Creating"; "Created"] rest) in
  exists w',
    check_feature_group_status (2 + fuel) fg world0 = Some w'
    /\ log w' = [Describe;
                 Print waiting_message; Sleep 5; Describe;
                 Print waiting_message; Sleep 5; Describe;
                 Print (success_message fg)]
    /\ sleeps (log w') = [5; 5]%Z
    /\ count is_sleep (log w') = 2
    /\ fetches w' = 3
    /\ reports_success fg w'.
Proof.
  intros fg. eexists. split.
  - rewrite (check_run fg world0 2); [done | lia | |].
    + intros j Hj. apply is_creating_true.
      destruct j as [|[|j]]; [by apply status_at_script.. | lia].
    + apply is_creating_false. unfold fg.
      by rewrite (status_at_script nm _ rest 2 "Created").
  - repeat split.
Qed.

(** C5.  The poller bounds the number of fetches in no way.  It returns
    exactly when some status it would fetch differs from "Creating"; on a
    service that answers "Creating" for ever it never returns, whatever
    the fuel; and for every [n] there is a run that returns after more
    than [n] fetches. *)
Theorem poller_terminates_iff_status_leaves_creating :
  (forall fg w,
     terminates fg w
     <-> exists k, status_at fg (fetches w + k) <> Some "Creating")
  /\ (forall fg w,
       (forall k, status_at fg (fetches w + k) = Some "Creating") ->
       forall fuel, check_feature_group_status fuel fg w = None)
  /\ (forall n, exists fg fuel w',
       check_feature_group_status fuel fg world0 = Some w'
       /\ n < fetches w').
Proof.
  assert (forall fg w fuel w',
            check_feature_group_status fuel fg w = Some w' ->
            exists k, status_at fg (fetches w + k) <> Some "Creating") as Hinv.
  { intros fg w fuel w' Hrun.
    destruct (check_inv _ _ _ _ Hrun) as (n & _ & _ & Hstop & _).
    exists n. by apply is_creating_false. }
  split; [|split].
  - intros fg w. split.
    + intros (fuel & w' & Hrun). eauto.
    + intros (k & Hk).
      destruct (first_false
                  (fun j => is_creating (status_at fg (fetches w + j))) k)
        as [Hall|(n & Hn & Hstop & Hpre)].
      * exists k. eexists. apply (check_run fg w k); [lia | done |].
        by apply is_creating_false.
      * exists n. eexists. by apply (check_run fg w n).
  - intros fg w Hall fuel.
    destruct (check_feature_group_status fuel fg w) as [w'|] eqn:Hrun; [|done].
    destruct (Hinv _ _ _ _ Hrun) as (k & Hk). by destruct Hk.
  - intros n.
    set (l := replicate n "Creating" ++ ["Created"]).
    exists (FeatureGroup "fg" (script l (fun _ => ∅))), n. eexists. split.
    + apply (check_run _ world0 n); [lia | |]; simpl.
      * intros j Hj. apply is_creating_true, status_at_script. unfold l.
        rewrite lookup_app_l by (rewrite length_replicate; lia).
        by apply lookup_replicate_2.
      * apply is_creating_false.
        rewrite (status_at_script _ l _ _ "Created"); [done |].
        unfold l. simpl. rewrite lookup_app_r by (rewrite length_replicate; lia).
        by rewrite length_replicate, Nat.sub_diag.
    + unfold print. simpl. rewrite fetches_iter_pass. simpl. lia.
Qed.

(** C9.  In every run of the poller that returns, the number of status
    fetches is the number of sleeps plus one, and one progress notification
    is emitted per sleep: the run makes some number [n] of passes, each a
    notification, a sleep and a fetch, so that it sleeps [n] times, fetches
    [n + 1] times and notifies [n] times.  The events counted are those
    the run added to the log. *)
Theorem fetches_are_sleeps_plus_one fg fuel w w' :
  check_feature_group_status fuel fg w = Some w' ->
  exists n new,
    log w' = log w ++ new
    /\ new = Describe :: concat (replicate n pass_events)
                ++ [Print (success_message fg)]
    /\ count is_sleep new = n
    /\ count is_describe new = count is_sleep new + 1
    /\ count is_progress new = count is_sleep new
    /\ fetches w' = fetches w + count is_describe new.
Proof.
  intros Hrun. destruct (check_inv _ _ _ _ Hrun) as (n & _ & _ & _ & ->).
  exists n. eexists. split; [apply log_of_run |]. split; [done |].
  unfold print; simpl. rewrite fetches_iter_pass.
  rewrite !count_cons, !count_app, !count_passes, !count_cons.
  rewrite success_is_not_progress.
  change (count is_describe pass_events) with 1.
  change (count is_sleep pass_events) with 1.
  change (count is_progress pass_events) with 1.
  change (count ?p []) with 0. simpl. lia.
Qed.

Lemma fetches_are_sleeps_plus_one_witness :
  exists n new,
    log (World 2 [Describe; Print waiting_message; Sleep 5; Describe;
                  Print "FeatureGroup fg successfully created."])
      = log world0 ++ new
    /\ new = Describe :: concat (replicate n pass_events)
                ++ [Print "FeatureGroup fg successfully created."]
    /\ count is_sleep new = n
    /\ count is_describe new = count is_sleep new + 1
    /\ count is_progress new = count is_sleep new
    /\ 2 = fetches world0 + count is_describe new.
Proof.
  apply (fetches_are_sleeps_plus_one
           (FeatureGroup "fg" (script ["Creating"; "Created"] (fun _ => ∅)))
           1 world0).
  vm_compute. reflexivity.
Defined.

End PollerTheory.

(* ===================================================================== *)
(** * The cast of the timestamp to float64                                *)
(* ===================================================================== *)

Module FloatTheory.
Import Frame.
#[local] Open Scope Z_scope.

(** The integer a float64 stands for, when it stands for one: a finite
    float is its mantissa times two to its exponent, with its sign. *)
Definition int_value (f : spec_float) : option Z :=
  match f with
  | S754_zero _ => Some 0
  | S754_finite s m e =>
      let v := if Z.leb 0 e then Some (Zpos m * 2 ^ e)
               else if Z.eqb (Zpos m mod 2 ^ (- e)) 0
                    then Some (Zpos m / 2 ^ (- e)) else None in
      if s then option_map Z.opp v else v
  | _ => None
  end.

Lemma iter_xO_value m k : Zpos (Pos.iter xO m k) = Zpos m * 2 ^ Zpos k.
Proof.
  induction k as [|k IH] using Pos.peano_ind.
  - simpl. lia.
  - rewrite Pos.iter_succ, Pos2Z.inj_succ, Z.pow_succ_r by lia.
    rewrite Pos2Z.inj_xO, IH. lia.
Qed.

Lemma iter_xO_digits m k :
  digits2_pos (Pos.iter xO m k) = (digits2_pos m + k)%positive.
Proof.
  induction k as [|k IH] using Pos.peano_ind.
  - simpl. lia.
  - rewrite Pos.iter_succ. simpl. rewrite IH. lia.
Qed.

Lemma digits2_lower m : 2 ^ Zpos (digits2_pos m) <= 2 * Zpos m.
Proof.
  induction m as [m IH|m IH|]; simpl digits2_pos.
  - rewrite Pos2Z.inj_succ, Z.pow_succ_r by lia. lia.
  - rewrite Pos2Z.inj_succ, Z.pow_succ_r by lia. lia.
  - simpl. lia.
Qed.

Lemma digits2_small m : Zpos m < 2 ^ 53 -> Zpos (digits2_pos m) <= 53.
Proof.
  intros Hm. destruct (Z_le_gt_dec (Zpos (digits2_pos m)) 53) as [|Hgt]; [assumption |].
  pose proof (digits2_lower m).
  assert (2 ^ 54 <= 2 ^ Zpos (digits2_pos m)) by (apply Z.pow_le_mono_r; lia).
  lia.
Qed.

Lemma binary_round_aux_exact s mz ez :
  Zpos (digits2_pos mz) = 53 -> -52 <= ez <= 0 ->
  binary_round_aux 53 1024 s (Zpos mz) ez loc_Exact = S754_finite s mz ez.
Proof.
  intros Hd He.
  assert (fexp 53 1024 (Zdigits2 (Zpos mz) + ez) - ez = 0) as Hshift.
  { change (Zdigits2 (Zpos mz)) with (Zpos (digits2_pos mz)).
    rewrite Hd. unfold fexp, emin. lia. }
  unfold binary_round_aux, shr_fexp. rewrite Hshift.
  cbn [shr shr_record_of_loc shr_m loc_of_shr_record round_nearest_even].
  rewrite Hshift. cbn [shr shr_record_of_loc shr_m].
  replace (ez <=? 1024 - 53) with true by (symmetry; apply Z.leb_le; lia).
  reflexivity.
Qed.

Lemma binary_round_small s m :
  Zpos m < 2 ^ 53 ->
  exists mz k, 0 <= k /\ Zpos mz = Zpos m * 2 ^ k
    /\ binary_round 53 1024 s m 0 = S754_finite s mz (- k).
Proof.
  intros Hm. pose proof (digits2_small m Hm) as Hd.
  unfold binary_round, shl_align.
  set (d := digits2_pos m) in *.
  assert (fexp 53 1024 (Zpos d + 0) = Zpos d - 53) as ->.
  { unfold fexp, emin. lia. }
  destruct (Zpos d - 53 - 0) as [|p|p] eqn:E.
  - exists m, 0. split; [lia|]. split; [lia|].
    apply binary_round_aux_exact; fold d; lia.
  - lia.
  - exists (Pos.iter xO m p), (Zpos p). split; [lia|].
    split; [apply iter_xO_value|].
    replace (Zpos d - 53) with (- Zpos p) by lia.
    apply binary_round_aux_exact; [|lia].
    rewrite iter_xO_digits. fold d. lia.
Qed.

Lemma int_value_finite s m k :
  0 <= k ->
  forall mz, Zpos mz = Zpos m * 2 ^ k ->
  int_value (S754_finite s mz (- k))
  = Some (if s then - Zpos m else Zpos m).
Proof.
  intros Hk mz Hmz. unfold int_value. rewrite Hmz.
  destruct (Z.eq_dec k 0) as [->|Hne].
  - simpl Z.opp. simpl Z.leb. cbv iota. rewrite Z.pow_0_r, !Z.mul_1_r.
    destruct s; reflexivity.
  - replace (0 <=? - k) with false by (symmetry; apply Z.leb_gt; lia).
    rewrite Z.opp_involutive, Z.mod_mul, Z.div_mul by lia.
    simpl. destruct s; reflexivity.
Qed.

Lemma float64_of_int_small z :
  Z.abs z < 2 ^ 53 -> int_value (float64_of_int z) = Some z.
Proof.
  intros Hz. destruct z as [|m|m]; unfold float64_of_int, binary_normalize.
  - reflexivity.
  - destruct (binary_round_small false m) as (mz & k & Hk & Hmz & ->); [lia |].
    apply (int_value_finite false m k Hk mz Hmz).
  - destruct (binary_round_small true m) as (mz & k & Hk & Hmz & ->); [lia |].
    apply (int_value_finite true m k Hk mz Hmz).
Qed.

(** Up to 2^53 in absolute value, the float64 of an integer stands for
    that integer. *)
Lemma float64_of_int_exact t :
  Z.abs t <= 2 ^ 53 -> int_value (float64_of_int t) = Some t.
Proof.
  intros Ht. destruct (Z.eq_dec (Z.abs t) (2 ^ 53)) as [Heq|Hne].
  - destruct (Z.abs_eq_or_opp t) as [Habs|Habs]; rewrite Habs in Heq.
    + subst t. by vm_compute.
    + replace t with (- 2 ^ 53) by lia. by vm_compute.
  - apply float64_of_int_small. lia.
Qed.

(** X7.  The cast to float64 does not change the timestamp: for every
    [current_time_sec] of absolute value at most 2^53, the float64 stamped
    on the rows stands for exactly that integer.  The bound is the last
    one: 2^53 + 1 is cast to the float64 of 2^53. *)
Theorem timestamp_survives_the_cast :
  (forall t, Z.abs t <= 2 ^ 53 -> int_value (float64_of_int t) = Some t)
  /\ int_value (float64_of_int (2 ^ 53 + 1)) = Some (2 ^ 53).
Proof. split; [apply float64_of_int_exact | by vm_compute]. Qed.

End FloatTheory.

(* ===================================================================== *)
(** * Properties of the event-time column                                 *)
(* ===================================================================== *)

Module FrameTheory.
Import Frame.

(** The property claimed of the append: the rows and their order are the
    same, the column names are the old ones followed by "EventTime", and
    every cell of every old column holds the same value. *)
Definition adds_one_column (df df' : DataFrame) : Prop :=
  index df' = index df
  /\ len df' = len df
  /\ column_names df' = column_names df ++ ["EventTime"]
  /\ forall key i, key ∈ column_names df -> cell df' key i = cell df key i.

(** The float64 value every row is stamped with. *)
Definition stamp (t : Z) : value := VFloat (float64_of_int t).

(** ** Columns by name *)

Lemma column_cons idx c cols key :
  column (mkFrame idx (c :: cols)) key
  = if decide (c.1 = key) then Some c.2 else column (mkFrame idx cols) key.
Proof.
  unfold column. simpl. case_decide; [done |].
  by destruct (list_find _ cols) as [[i x]|].
Qed.

Lemma column_app_old idx cols more key :
  key ∈ cols.*1 ->
  column (mkFrame idx (cols ++ more)) key = column (mkFrame idx cols) key.
Proof.
  induction cols as [|c cols IH]; intros Hin; [by apply elem_of_nil in Hin |].
  simpl. rewrite !column_cons. case_decide; [done |].
  apply IH. simpl in Hin. apply elem_of_cons in Hin as [?|?]; [congruence | done].
Qed.

Lemma column_app_new idx cols key vals :
  key ∉ cols.*1 ->
  column (mkFrame idx (cols ++ [(key, vals)])) key = Some vals.
Proof.
  induction cols as [|c cols IH]; intros Hnin; simpl; rewrite column_cons.
  - simpl. by rewrite decide_True.
  - simpl in Hnin. apply not_elem_of_cons in Hnin as [Hne Hnin].
    rewrite decide_False by congruence. by apply IH.
Qed.

Lemma column_replaced idx cols key vals :
  key ∈ cols.*1 ->
  column (mkFrame idx
            ((fun c => if bool_decide (c.1 = key) then (key, vals) else c)
               <$> cols)) key
  = Some vals.
Proof.
  induction cols as [|c cols IH]; intros Hin; [by apply elem_of_nil in Hin |].
  simpl. rewrite column_cons. destruct (decide (c.1 = key)) as [Heq|Hne].
  - rewrite bool_decide_eq_true_2 by done. simpl. by rewrite decide_True.
  - rewrite bool_decide_eq_false_2 by done. rewrite decide_False by done.
    apply IH. simpl in Hin. apply elem_of_cons in Hin as [?|?]; [congruence | done].
Qed.

(** ** The series of the append, aligned on a frame's row labels *)

Lemma find_in_range n lbl :
  lbl < n -> list_find (eq lbl) (seq 0 n) = Some (lbl, lbl).
Proof.
  intros Hlt. apply list_find_Some. split_and!.
  - by apply lookup_seq.
  - done.
  - intros j y Hj Hlt' ->. apply lookup_seq in Hj. lia.
Qed.

Lemma series_at_stamp n t lbl :
  lbl < n -> series_at (Series_float64 (replicate n t)) lbl = stamp t.
Proof.
  intros Hlt. unfold series_at, Series_float64. simpl.
  rewrite length_replicate, find_in_range by done.
  rewrite list_lookup_fmap, lookup_replicate_2 by done. done.
Qed.

Lemma reindex_range n t :
  reindex (Series_float64 (replicate n t)) (seq 0 n) = replicate n (stamp t).
Proof.
  unfold reindex. apply list_eq. intros i.
  rewrite list_lookup_fmap. destruct (decide (i < n)) as [Hlt|Hge].
  - rewrite lookup_seq_lt, lookup_replicate_2 by done. simpl.
    by rewrite series_at_stamp.
  - rewrite lookup_seq_ge by lia. symmetry.
    apply lookup_replicate_None. lia.
Qed.

Lemma length_reindex s idx : length (reindex s idx) = length idx.
Proof. unfold reindex. apply length_fmap. Qed.

(** The append never meets the case of a frame without rows that takes
    the labels of the series: the series has as many values as the frame
    has rows. *)
Lemma append_event_time_eq t df :
  append_event_time t df
  = let vals := reindex (Series_float64 (replicate (len df) t)) (index df) in
    if bool_decide ("EventTime" ∈ column_names df) then
      mkFrame (index df)
        ((fun c => if bool_decide (c.1 = "EventTime")
                   then ("EventTime", vals) else c) <$> columns df)
    else mkFrame (index df) (columns df ++ [("EventTime", vals)]).
Proof.
  unfold append_event_time, setitem.
  set (s := Series_float64 (replicate (len df) t)).
  assert (bool_decide (index df = [] /\ s_values s <> []) = false) as ->;
    [| reflexivity].
  apply bool_decide_eq_false. intros [Hidx Hvals]. apply Hvals.
  unfold s, len. rewrite Hidx. reflexivity.
Qed.

(** ** The claims about the event-time column *)

(** A frame that already has a column named "EventTime". *)
Definition stamped_before : DataFrame :=
  mkFrame [0; 1]
    [("customer_id", [VInt 573291; VInt 109382]);
     ("EventTime", [VStr "2020-10-30"; VStr "2020-10-31"])].

(** C8, as stated, fails on a dataset that already has a column named
    "EventTime": the assignment overwrites that column, so no column is
    added and the cells of an old column change. *)
Lemma append_overwrites_existing_column :
  ~ adds_one_column stamped_before (append_event_time 1604016000 stamped_before)
  /\ column_names (append_event_time 1604016000 stamped_before)
     = column_names stamped_before
  /\ cell stamped_before "EventTime" 0 = Some (VStr "2020-10-30")
  /\ cell (append_event_time 1604016000 stamped_before) "EventTime" 0
     = Some (stamp 1604016000).
Proof.
  split; [|by vm_compute].
  intros (_ & _ & Hnames & _). vm_compute in Hnames. discriminate.
Qed.

(** C8, amended.  For every dataset that has no column named "EventTime"
    yet, appending the event-time column adds exactly one new column,
    "EventTime", after the old ones, with one value per row, and leaves
    the rest as it was: the old columns and their order, the value of
    every old cell, the number of rows and the order of the rows. *)
Theorem append_adds_one_column t df :
  "EventTime" ∉ column_names df ->
  let df' := append_event_time t df in
  adds_one_column df df'
  /\ exists vals,
       columns df' = columns df ++ [("EventTime", vals)]
       /\ length vals = len df.
Proof.
  intros Hnew df'. unfold df'. rewrite append_event_time_eq. cbv zeta.
  rewrite bool_decide_eq_false_2 by done.
  split; [split_and! |].
  - done.
  - done.
  - unfold column_names. simpl. by rewrite fmap_app.
  - intros key i Hkey. unfold cell. simpl. destruct df as [idx cols].
    simpl in *. by rewrite column_app_old.
  - eexists. split; [done |]. by rewrite length_reindex.
Qed.

Lemma append_adds_one_column_witness :
  let df := mkFrame [0; 1] [("customer_id", [VInt 573291; VInt 109382]);
                            ("city_code", [VInt 1; VInt 2])] in
  let df' := append_event_time 1604016000 df in
  adds_one_column df df'
  /\ exists vals,
       columns df' = columns df ++ [("EventTime", vals)]
       /\ length vals = len df.
Proof.
  intros df.
  apply (append_adds_one_column 1604016000 df).
  apply (bool_decide_unpack _). vm_compute. exact I.
Defined.

(** On a dataset that has such a column already, the rows and the other
    columns stay as they were, and that column is stamped. *)
Lemma append_on_existing_column t df :
  "EventTime" ∈ column_names df ->
  let df' := append_event_time t df in
  index df' = index df
  /\ column_names df' = column_names df
  /\ forall key i, key <> "EventTime" -> cell df' key i = cell df key i.
Proof.
  intros Hold df'. unfold df'. rewrite append_event_time_eq. cbv zeta.
  rewrite bool_decide_eq_true_2 by done. destruct df as [idx cols].
  clear Hold. split_and!; [done | |].
  - unfold column_names. simpl. rewrite <- list_fmap_compose.
    apply list_fmap_ext. intros _ c _. simpl. by case_bool_decide.
  - intros key i Hkey. unfold cell. f_equal. simpl.
    induction cols as [|c cols IH]; [done |].
    simpl. rewrite !column_cons. case_bool_decide as Hc; simpl.
    + rewrite !decide_False by congruence. apply IH.
    + case_decide; [done | apply IH].
Qed.

(** C10.  The clock is read once, before the append, and the value read
    is stamped on every row of both frames: the "EventTime" column of the
    customer frame and that of the orders frame hold, at every row, the
    float64 of the one value [current_time_sec]; and that float64 stands
    for exactly the integer read from the clock, as long as its absolute
    value is at most 2^53. *)
Theorem one_timestamp_on_every_row clk customer_csv orders_csv :
  exists nb t,
    run_cells clk customer_csv orders_csv = Some nb
    /\ current_time_sec nb = Some t
    /\ t = clk 0
    /\ clock_reads nb = 1
    /\ len (customer_data nb) = csv_rows customer_csv
    /\ len (orders_data nb) = csv_rows orders_csv
    /\ column (customer_data nb) "EventTime"
       = Some (replicate (csv_rows customer_csv) (stamp t))
    /\ column (orders_data nb) "EventTime"
       = Some (replicate (csv_rows orders_csv) (stamp t))
    /\ (forall i, i < len (customer_data nb) ->
         cell (customer_data nb) "EventTime" i = Some (stamp t))
    /\ (forall i, i < len (orders_data nb) ->
         cell (orders_data nb) "EventTime" i = Some (stamp t))
    /\ ((Z.abs t <= 2 ^ 53)%Z ->
        forall i, i < len (customer_data nb) ->
        exists f, cell (customer_data nb) "EventTime" i = Some (VFloat f)
                  /\ FloatTheory.int_value f = Some t)
    /\ ((Z.abs t <= 2 ^ 53)%Z ->
        forall i, i < len (orders_data nb) ->
        exists f, cell (orders_data nb) "EventTime" i = Some (VFloat f)
                  /\ FloatTheory.int_value f = Some t).
Proof.
  assert (forall t file,
            len (append_event_time t (read_csv file)) = csv_rows file
            /\ column (append_event_time t (read_csv file)) "EventTime"
               = Some (replicate (csv_rows file) (stamp t))) as Hstamp.
  { intros t [n cols]. rewrite append_event_time_eq. cbv zeta.
    unfold read_csv, len. simpl. rewrite length_seq, reindex_range.
    case_bool_decide as Hin; simpl.
    - split; [by rewrite length_seq |]. by apply column_replaced.
    - split; [by rewrite length_seq |]. by apply column_app_new. }
  exists (mkNotebook (append_event_time (clk 0) (read_csv customer_csv))
                     (append_event_time (clk 0) (read_csv orders_csv))
                     (Some (clk 0)) 1), (clk 0).
  destruct (Hstamp (clk 0) customer_csv) as [Hlen1 Hcol1].
  destruct (Hstamp (clk 0) orders_csv) as [Hlen2 Hcol2].
  simpl. split_and!; try done.
  - intros i Hi. unfold cell. rewrite Hcol1. simpl.
    apply lookup_replicate_2. by rewrite <- Hlen1.
  - intros i Hi. unfold cell. rewrite Hcol2. simpl.
    apply lookup_replicate_2. by rewrite <- Hlen2.
  - intros Ht i Hi. exists (float64_of_int (clk 0)). split.
    + unfold cell. rewrite Hcol1. simpl.
      apply lookup_replicate_2. by rewrite <- Hlen1.
    + by apply FloatTheory.float64_of_int_exact.
  - intros Ht i Hi. exists (float64_of_int (clk 0)). split.
    + unfold cell. rewrite Hcol2. simpl.
      apply lookup_replicate_2. by rewrite <- Hlen2.
    + by apply FloatTheory.float64_of_int_exact.
Qed.

End FrameTheory.

(* ===================================================================== *)
(** * Properties of the batch ingestor                                    *)
(* ===================================================================== *)

Module BatchIngestorTheory.
Import BatchIngestor.

(** ** The shards *)

(** With at least one worker, [w] runs of [batch_size n w] rows reach the
    end of the dataset. *)
Lemma batches_reach_end n w : 1 <= w -> n <= w * batch_size n w.
Proof.
  intros Hw. unfold batch_size.
  pose proof (Nat.div_mod_eq (n + w - 1) w) as Hdiv.
  pose proof (Nat.mod_upper_bound (n + w - 1) w) as Hmod. lia.
Qed.

Lemma merge_adjacent {A} (l : list A) a c :
  a <= c -> take a l ++ take (c - a) (drop a l) = take c l.
Proof. intros Hac. rewrite take_take_drop. f_equal. lia. Qed.

(** The bounds of the shards chain: each starts where the one before it
    ended, and none ends before it starts. *)
Lemma shard_bounds_chain n w i :
  (shard_bounds n w i).2 = (shard_bounds n w (S i)).1
  /\ (shard_bounds n w i).1 <= (shard_bounds n w i).2.
Proof. unfold shard_bounds. simpl. split; [f_equal; lia | lia]. Qed.

Lemma shard_eq {Row} (D : list Row) w i :
  shard D w i
  = ((shard_bounds (length D) w i).1,
     take ((shard_bounds (length D) w i).2 - (shard_bounds (length D) w i).1)
          (drop (shard_bounds (length D) w i).1 D)).
Proof. unfold shard. by destruct (shard_bounds _ _ _). Qed.

(** The rows of the first [k] shards, in order, are the rows before the
    start of shard [k]. *)
Lemma first_shards_rows {Row} (D : list Row) w k :
  concat (snd <$> (shard D w <$> seq 0 k))
  = take (shard_bounds (length D) w k).1 D.
Proof.
  induction k as [|k IH].
  - simpl. by rewrite take_0.
  - rewrite seq_S, !fmap_app, concat_app, IH. simpl.
    rewrite app_nil_r, merge_adjacent by lia. f_equal. lia.
Qed.

(** The indices of the rows of the first [k] shards. *)
Lemma first_shards_indices {Row} (D : list Row) w k :
  concat ((fun sh => seq sh.1 (length sh.2)) <$> (shard D w <$> seq 0 k))
  = seq 0 (shard_bounds (length D) w k).1.
Proof.
  induction k as [|k IH].
  - done.
  - rewrite seq_S, !fmap_app, concat_app, IH. simpl.
    rewrite app_nil_r, length_take, length_drop, <- seq_app. f_equal. lia.
Qed.

Lemma last_bound_is_length n w :
  1 <= w -> (shard_bounds n w w).1 = n.
Proof.
  intros Hw. unfold shard_bounds. simpl.
  pose proof (batches_reach_end n w Hw). lia.
Qed.

Lemma length_shards {Row} (D : list Row) w : length (shards D w) = w.
Proof. unfold shards. by rewrite length_fmap, length_seq. Qed.

(** ** One worker, then all of them *)

Section Ingestion.

Context {Row : Type}.
Variable to_record : Row -> record.
Variable put_record : string -> record -> option string.
Variable g : FeatureGroupDescriptor.

(** The put-record calls a run of rows leads to: one for each row whose
    Record reaches the operation, in row order.  The answers of the
    operation play no part in it. *)
Definition submitted (rows : list Row) : list (string * record) :=
  concat ((fun row => if reaches_put g (to_record row)
                      then [(fg_name g, to_record row)] else []) <$> rows).

Lemma submit_calls r :
  (submit put_record g r).2
  = if reaches_put g r then [(fg_name g, r)] else [].
Proof.
  unfold submit, reaches_put. destruct (validate g r) as [e|]; simpl.
  - done.
  - by case_bool_decide.
Qed.

Lemma failed_rows_app i rows1 rows2 :
  failed_rows to_record put_record g i (rows1 ++ rows2)
  = failed_rows to_record put_record g i rows1
    ++ failed_rows to_record put_record g (i + length rows1) rows2.
Proof.
  revert i. induction rows1 as [|row rows1 IH]; intros i; simpl.
  - by rewrite Nat.add_0_r.
  - rewrite IH. replace (S i + length rows1) with (i + S (length rows1)) by lia.
    by destruct (row_outcome _ _ _ _).
Qed.

Lemma submitted_app rows1 rows2 :
  submitted (rows1 ++ rows2) = submitted rows1 ++ submitted rows2.
Proof. unfold submitted. by rewrite fmap_app, concat_app. Qed.

(** A worker adds the failed rows of its shard to the failures, and the
    calls of its shard to the calls; it never stops early. *)
Lemma ingest_shard_eq rows : forall i st,
  ingest_shard to_record put_record g i rows st
  = mkState (failures st ++ failed_rows to_record put_record g i rows)
            (put_calls st ++ submitted rows).
Proof.
  induction rows as [|row rows IH]; intros i [fs cs]; simpl.
  - by rewrite !app_nil_r.
  - unfold row_outcome.
    pose proof (submit_calls (to_record row)) as Hcalls.
    destruct (submit put_record g (to_record row)) as [err calls].
    simpl in Hcalls. subst calls. rewrite IH. simpl.
    unfold submitted at 2. simpl. fold (submitted rows).
    destruct err; simpl; by rewrite <- !app_assoc.
Qed.

(** After the first [k] workers. *)
Lemma first_workers_eq (D : list Row) w k :
  foldl (fun st sh => ingest_shard to_record put_record g sh.1 sh.2 st)
        (mkState [] []) (shard D w <$> seq 0 k)
  = let rows := take (shard_bounds (length D) w k).1 D in
    mkState (failed_rows to_record put_record g 0 rows) (submitted rows).
Proof.
  induction k as [|k IH].
  - simpl. by rewrite take_0.
  - rewrite seq_S, fmap_app, foldl_app, IH.
    cbn [fmap list_fmap foldl Nat.add]. rewrite ingest_shard_eq, shard_eq.
    cbn [fst snd failures put_calls].
    destruct (shard_bounds_chain (length D) w k) as [Hend Hle].
    assert ((shard_bounds (length D) w k).1 <= length D) as Hn
      by (unfold shard_bounds; simpl; lia).
    rewrite <- Hend.
    rewrite <- (merge_adjacent D _ _ Hle), failed_rows_app, submitted_app.
    by rewrite length_take_le.
Qed.

(** The whole ingestion: the failures are the failed rows of the dataset
    with their indices, in row order, and the calls are those of the rows
    that reach put-record. *)
Lemma ingest_eq (D : list Row) w :
  1 <= w ->
  ingest to_record put_record g D w
  = (match failed_rows to_record put_record g 0 D with
     | [] => Ingested
     | fs => PartialIngestFailure fs
     end,
     submitted D).
Proof.
  intros Hw. unfold ingest, shards. rewrite first_workers_eq. cbv zeta.
  rewrite last_bound_is_length by done. by rewrite take_ge.
Qed.

(** The failed rows are the rows with an error, each under its index. *)
Lemma elem_of_failed_rows rows : forall k i e,
  (i, e) ∈ failed_rows to_record put_record g k rows
  <-> exists row, k <= i /\ rows !! (i - k) = Some row
                 /\ row_outcome to_record put_record g row = Some e.
Proof.
  induction rows as [|row rows IH]; intros k i e; simpl.
  - split; [by intros ?%elem_of_nil | by intros (? & _ & ? & _)].
  - assert ((i, e) ∈ failed_rows to_record put_record g (S k) rows
            <-> exists row', k < i /\ rows !! (i - S k) = Some row'
                 /\ row_outcome to_record put_record g row' = Some e) as IH'.
    { rewrite IH. by setoid_rewrite Nat.le_succ_l. }
    assert (forall x, (i, e) = (k, x) <-> i = k /\ e = x) as Hpair
      by (intros x; split; [by intros [= -> ->] | by intros [-> ->]]).
    destruct (row_outcome to_record put_record g row) as [e0|] eqn:Hrow.
    + rewrite elem_of_cons, IH', Hpair. split.
      * intros [[-> ->]|(row' & Hlt & Hlook & Hout)].
        -- exists row. rewrite Nat.sub_diag. done.
        -- exists row'. split; [lia |].
           by replace (i - k) with (S (i - S k)) by lia.
      * intros (row' & Hle & Hlook & Hout).
        destruct (decide (i = k)) as [->|Hne].
        -- left. rewrite Nat.sub_diag in Hlook. simpl in Hlook.
           split; [done | congruence].
        -- right. exists row'. split; [lia |].
           by replace (i - k) with (S (i - S k)) in Hlook by lia.
    + rewrite IH'. split.
      * intros (row' & Hlt & Hlook & Hout). exists row'. split; [lia |].
        by replace (i - k) with (S (i - S k)) by lia.
      * intros (row' & Hle & Hlook & Hout).
        destruct (decide (i = k)) as [->|Hne].
        -- rewrite Nat.sub_diag in Hlook. simpl in Hlook. congruence.
        -- exists row'. split; [lia |].
           by replace (i - k) with (S (i - S k)) in Hlook by lia.
Qed.

Lemma elem_of_submitted rows c :
  c ∈ submitted rows
  <-> exists row, row ∈ rows /\ c = (fg_name g, to_record row)
                 /\ reaches_put g (to_record row) = true.
Proof.
  induction rows as [|row rows IH].
  - split; [by intros ?%elem_of_nil |].
    by intros (? & ?%elem_of_nil & _).
  - change (row :: rows) with ([row] ++ rows) at 1.
    rewrite (submitted_app [row] rows).
    rewrite elem_of_app, IH. unfold submitted at 1. simpl.
    rewrite app_nil_r. split.
    + intros [Hc|(row' & Hin & -> & Hreach)].
      * exists row. destruct (reaches_put g (to_record row)) eqn:Hreach.
        -- apply list_elem_of_singleton in Hc. split; [left | done].
        -- by apply elem_of_nil in Hc.
      * exists row'. split; [by right | done].
    + intros (row' & Hin & -> & Hreach).
      apply elem_of_cons in Hin as [->|Hin].
      * left. rewrite Hreach. by apply list_elem_of_singleton.
      * right. by exists row'.
Qed.

(** The error of a row that reaches put-record is the error put-record
    answers, and it has none when put-record succeeds. *)
Lemma row_outcome_reaches row :
  reaches_put g (to_record row) = true ->
  row_outcome to_record put_record g row
  = PutRecordError <$> put_record (fg_name g) (to_record row).
Proof.
  unfold reaches_put, row_outcome, submit. intros Hreach.
  apply andb_true_iff in Hreach as [Hval Hst].
  apply bool_decide_eq_true in Hval. rewrite Hval, Hst. done.
Qed.

(** A row that does not reach put-record ends in an error that is not
    put-record's. *)
Lemma row_outcome_rejected row :
  reaches_put g (to_record row) = false ->
  exists e, row_outcome to_record put_record g row = Some e
            /\ forall msg, e <> PutRecordError msg.
Proof.
  unfold reaches_put, row_outcome, submit. intros Hreach.
  destruct (validate g (to_record row)) as [e|] eqn:Hval; simpl in *.
  - exists e. split; [done |]. intros msg ->. unfold validate in Hval.
    repeat case_bool_decide; discriminate.
  - rewrite Hreach. simpl. eexists. split; [done |]. discriminate.
Qed.

Lemma failed_rows_none rows : forall i,
  (forall j row, rows !! j = Some row ->
     row_outcome to_record put_record g row = None) ->
  failed_rows to_record put_record g i rows = [].
Proof.
  induction rows as [|row rows IH]; intros i Hnone; [done |].
  simpl. rewrite (Hnone 0 row) by done.
  apply IH. intros j row' Hj. by apply (Hnone (S j)).
Qed.

(** One failing row among rows that succeed: one entry, under its index. *)
Lemma failed_rows_one rows : forall i k row e,
  rows !! k = Some row ->
  row_outcome to_record put_record g row = Some e ->
  (forall j row', rows !! j = Some row' -> j <> k ->
     row_outcome to_record put_record g row' = None) ->
  failed_rows to_record put_record g i rows = [(i + k, e)].
Proof.
  induction rows as [|row0 rows IH]; intros i k row e Hk He Hothers;
    [done |].
  destruct k as [|k]; simpl in Hk.
  - injection Hk as ->. simpl. rewrite He, Nat.add_0_r. f_equal.
    apply failed_rows_none. intros j row' Hj. by apply (Hothers (S j)).
  - simpl. rewrite (Hothers 0 row0) by done.
    rewrite (IH (S i) k row e Hk He).
    + f_equal. f_equal. lia.
    + intros j row' Hj Hne. apply (Hothers (S j)); [done | lia].
Qed.

Lemma submitted_all rows :
  (forall row, row ∈ rows -> reaches_put g (to_record row) = true) ->
  submitted rows = (fun row => (fg_name g, to_record row)) <$> rows.
Proof.
  induction rows as [|row rows IH]; intros Hall; [done |].
  change (row :: rows) with ([row] ++ rows) at 1.
  rewrite submitted_app, IH by (intros r Hr; apply Hall; by right).
  unfold submitted. simpl. rewrite (Hall row) by (by left). done.
Qed.

End Ingestion.

(** ** A batch to run the ingestor on *)

Definition customers (st : status) : FeatureGroupDescriptor :=
  mkDescriptor "customers-feature-group" "customer_id" "EventTime"
    [("customer_id", Integral); ("city_code", Integral);
     ("EventTime", Fractional)] st.

Definition customer_row (id : string) : record :=
  [("customer_id", Some id); ("city_code", Some "1");
   ("EventTime", Some "1604016000.0")].

(** A row whose record-identifier value is missing. *)
Definition anonymous_row : record :=
  [("customer_id", None); ("city_code", Some "1");
   ("EventTime", Some "1604016000.0")].

Definition ten_rows : list record :=
  customer_row <$> ["573291"; "109382"; "828400"; "124013"; "573292";
                    "109383"; "828401"; "124014"; "573293"; "109384"].

(** A put-record operation that fails for one customer and succeeds for
    the others. *)
Definition put_failing_on (id : string) (_ : string) (r : record)
  : option string :=
  if bool_decide (values_of "customer_id" r = [id])
  then Some "ThrottlingException" else None.

Definition put_ok (_ : string) (_ : record) : option string := None.

(** A batch of 10 rows, the put-record of row 7 failing, 3 workers: the
    failure list has the one entry for row 7, and all 10 rows were
    submitted, the 3 rows after row 7 included. *)
Example ten_rows_one_failure :
  ingest id (put_failing_on "124014") (customers Created) ten_rows 3
  = (PartialIngestFailure [(7, PutRecordError "ThrottlingException")],
     (fun r => ("customers-feature-group", r)) <$> ten_rows).
Proof. by vm_compute. Qed.

Example ten_rows_no_failure :
  (ingest id put_ok (customers Created) ten_rows 3).1 = Ingested.
Proof. by vm_compute. Qed.

(** ** The claims about the batch ingestor *)

Lemma take_length_take {A} (l : list A) m :
  take (length (take m l)) l = take m l.
Proof.
  rewrite length_take. destruct (decide (m <= length l)).
  - by rewrite Nat.min_l.
  - rewrite Nat.min_r by lia. rewrite !take_ge by lia. done.
Qed.

(** C3.  For every dataset and every number [w >= 1] of workers, the
    dataset is cut into [w] shards, each a run of consecutive rows, and
    the shards taken together are the dataset: their rows in order are
    its rows, and the indices of their rows are 0, ..., n-1, each once. *)
Theorem shards_are_a_partition {Row} (D : list Row) w :
  1 <= w ->
  length (shards D w) = w
  /\ concat (snd <$> shards D w) = D
  /\ concat ((fun sh => seq sh.1 (length sh.2)) <$> shards D w)
     = seq 0 (length D)
  /\ (forall sh, sh ∈ shards D w -> sh.2 = take (length sh.2) (drop sh.1 D)).
Proof.
  intros Hw. split_and!.
  - apply length_shards.
  - unfold shards. rewrite first_shards_rows, last_bound_is_length by done.
    by rewrite take_ge.
  - unfold shards.
    by rewrite first_shards_indices, last_bound_is_length.
  - intros sh Hsh. unfold shards in Hsh.
    apply list_elem_of_fmap in Hsh as (i & -> & _).
    rewrite shard_eq. simpl. by rewrite take_length_take.
Qed.

Lemma shards_are_a_partition_witness :
  length (shards ten_rows 3) = 3
  /\ concat (snd <$> shards ten_rows 3) = ten_rows
  /\ concat ((fun sh => seq sh.1 (length sh.2)) <$> shards ten_rows 3)
     = seq 0 (length ten_rows)
  /\ (forall sh, sh ∈ shards ten_rows 3 ->
       sh.2 = take (length sh.2) (drop sh.1 ten_rows)).
Proof. apply (shards_are_a_partition ten_rows 3). lia. Defined.

(** C4.  For every dataset and every number [w >= 1] of workers: the
    put-record calls made are those of all the rows that reach the
    operation, whatever the operation answers, so that a failed row stops
    no other row; the ingestion fails exactly when the number of failed
    rows is not zero, and it then surfaces the list of the failed rows,
    which holds a pair (row index, error) for exactly the rows that ended
    in an error.  A row that reaches put-record is submitted, and it is in
    the list exactly when put-record answered an error, with that error;
    a row that does not reach it is in the list with its own error.  When
    all rows reach put-record and put-record fails for one row only, the
    list is the one pair of that row, and every row was submitted. *)
Theorem failures_are_collected {Row} (to_record : Row -> record)
    (put_record : string -> record -> option string) g (D : list Row) w :
  1 <= w ->
  let run := ingest to_record put_record g D w in
  let fs := failed_rows to_record put_record g 0 D in
  run.2 = submitted to_record g D
  /\ (forall put_record', (ingest to_record put_record' g D w).2 = run.2)
  /\ (run.1 = Ingested <-> length fs = 0)
  /\ (length fs <> 0 -> run.1 = PartialIngestFailure fs)
  /\ (forall i e, (i, e) ∈ fs
        <-> exists row, D !! i = Some row
                       /\ row_outcome to_record put_record g row = Some e)
  /\ (forall i row,
        D !! i = Some row ->
        reaches_put g (to_record row) = true ->
        (fg_name g, to_record row) ∈ run.2
        /\ (forall msg,
              put_record (fg_name g) (to_record row) = Some msg
              <-> (i, PutRecordError msg) ∈ fs)
        /\ (forall e, (i, e) ∈ fs ->
              exists msg, e = PutRecordError msg
                          /\ put_record (fg_name g) (to_record row) = Some msg)
        /\ (put_record (fg_name g) (to_record row) = None ->
            forall e, (i, e) ∉ fs))
  /\ (forall i row,
        D !! i = Some row ->
        reaches_put g (to_record row) = false ->
        exists e, (i, e) ∈ fs /\ forall msg, e <> PutRecordError msg)
  /\ (forall k row msg,
        (forall row', row' ∈ D -> reaches_put g (to_record row') = true) ->
        D !! k = Some row ->
        put_record (fg_name g) (to_record row) = Some msg ->
        (forall j row', D !! j = Some row' -> j <> k ->
           put_record (fg_name g) (to_record row') = None) ->
        run = (PartialIngestFailure [(k, PutRecordError msg)],
               (fun row' => (fg_name g, to_record row')) <$> D)).
Proof.
  intros Hw run fs. unfold run.
  rewrite (ingest_eq to_record put_record g D w Hw). fold fs. cbn [fst snd].
  assert (forall i e, (i, e) ∈ fs
            <-> exists row, D !! i = Some row
                  /\ row_outcome to_record put_record g row = Some e) as Hfs.
  { intros i e. unfold fs. rewrite elem_of_failed_rows.
    rewrite Nat.sub_0_r. split.
    - intros (row & _ & ? & ?). by exists row.
    - intros (row & ? & ?). exists row. split; [lia | done]. }
  split_and!.
  - done.
  - intros put'. by rewrite ingest_eq.
  - destruct fs; simpl; split; (done || lia).
  - by destruct fs.
  - done.
  - intros i row Hrow Hreach.
    pose proof (row_outcome_reaches to_record put_record g row Hreach) as Hout.
    split_and!.
    + apply elem_of_submitted. exists row. split_and!; [| done | done].
      by apply list_elem_of_lookup_2 in Hrow.
    + intros msg. rewrite Hfs. split.
      * intros Hput. exists row. split; [done |]. by rewrite Hout, Hput.
      * intros (row' & Hrow' & Hout'). rewrite Hrow in Hrow'.
        injection Hrow' as <-. rewrite Hout in Hout'.
        destruct (put_record _ _) as [msg'|]; simpl in Hout'; congruence.
    + intros e (row' & Hrow' & Hout')%Hfs. rewrite Hrow in Hrow'.
      injection Hrow' as <-. rewrite Hout in Hout'.
      destruct (put_record _ _) as [msg'|]; simpl in Hout'; [| done].
      exists msg'. split; congruence.
    + intros Hput e (row' & Hrow' & Hout')%Hfs. rewrite Hrow in Hrow'.
      injection Hrow' as <-. rewrite Hout, Hput in Hout'. done.
  - intros i row Hrow Hreach.
    destruct (row_outcome_rejected to_record put_record g row Hreach)
      as (e & Hout & Hnot).
    exists e. split; [| done]. apply Hfs. by exists row.
  - intros k row msg Hall Hrow Hput Hothers.
    assert (fs = [(k, PutRecordError msg)]) as ->.
    { unfold fs.
      rewrite (failed_rows_one to_record put_record g D 0 k row
                 (PutRecordError msg)); [done | done | |].
      - rewrite row_outcome_reaches, Hput; [done |].
        apply Hall. by apply list_elem_of_lookup_2 in Hrow.
      - intros j row' Hj Hne. rewrite row_outcome_reaches.
        + by rewrite (Hothers j row').
        + apply Hall. by apply list_elem_of_lookup_2 in Hj. }
    by rewrite submitted_all.
Qed.

Lemma failures_are_collected_witness :
  let to_record := @id record in
  let put_record := put_failing_on "124014" in
  let g := customers Created in
  let D := ten_rows in
  let run := ingest to_record put_record g D 3 in
  let fs := failed_rows to_record put_record g 0 D in
  run.2 = submitted to_record g D
  /\ (forall put_record', (ingest to_record put_record' g D 3).2 = run.2)
  /\ (run.1 = Ingested <-> length fs = 0)
  /\ (length fs <> 0 -> run.1 = PartialIngestFailure fs)
  /\ (forall i e, (i, e) ∈ fs
        <-> exists row, D !! i = Some row
                       /\ row_outcome to_record put_record g row = Some e)
  /\ (forall i row,
        D !! i = Some row ->
        reaches_put g (to_record row) = true ->
        (fg_name g, to_record row) ∈ run.2
        /\ (forall msg,
              put_record (fg_name g) (to_record row) = Some msg
              <-> (i, PutRecordError msg) ∈ fs)
        /\ (forall e, (i, e) ∈ fs ->
              exists msg, e = PutRecordError msg
                          /\ put_record (fg_name g) (to_record row) = Some msg)
        /\ (put_record (fg_name g) (to_record row) = None ->
            forall e, (i, e) ∉ fs))
  /\ (forall i row,
        D !! i = Some row ->
        reaches_put g (to_record row) = false ->
        exists e, (i, e) ∈ fs /\ forall msg, e <> PutRecordError msg)
  /\ (forall k row msg,
        (forall row', row' ∈ D -> reaches_put g (to_record row') = true) ->
        D !! k = Some row ->
        put_record (fg_name g) (to_record row) = Some msg ->
        (forall j row', D !! j = Some row' -> j <> k ->
           put_record (fg_name g) (to_record row') = None) ->
        run = (PartialIngestFailure [(k, PutRecordError msg)],
               (fun row' => (fg_name g, to_record row')) <$> D)).
Proof.
  intros to_record put_record g D.
  apply (failures_are_collected to_record put_record g D 3).
  lia.
Defined.

Lemma validate_missing_identifier g r :
  values_of (record_identifier_name g) r = [] ->
  validate g r = Some (ValidationError "record identifier").
Proof. intros H. unfold validate. by rewrite H. Qed.

(** C6.  A Record whose record-identifier value is missing fails
    validation, and put-record is not called for it: submitted alone it
    ends in the validation error with no call, and as row [i] of any
    dataset, with any number [w >= 1] of workers, it makes the ingestion
    fail with the pair (i, validation error) among the failures, while no
    put-record call carries that Record. *)
Theorem missing_identifier_never_reaches_put {Row} (to_record : Row -> record)
    (put_record : string -> record -> option string) g (D : list Row) w i row :
  1 <= w ->
  D !! i = Some row ->
  values_of (record_identifier_name g) (to_record row) = [] ->
  submit put_record g (to_record row)
  = (Some (ValidationError "record identifier"), [])
  /\ (exists fs,
        (ingest to_record put_record g D w).1 = PartialIngestFailure fs
        /\ (i, ValidationError "record identifier") ∈ fs)
  /\ (forall group,
        (group, to_record row) ∉ (ingest to_record put_record g D w).2).
Proof.
  intros Hw Hrow Hmissing.
  pose proof (validate_missing_identifier g _ Hmissing) as Hval.
  assert (submit put_record g (to_record row)
          = (Some (ValidationError "record identifier"), [])) as Hsubmit
    by (unfold submit; by rewrite Hval).
  assert ((i, ValidationError "record identifier")
            ∈ failed_rows to_record put_record g 0 D) as Hin.
  { apply elem_of_failed_rows. exists row. rewrite Nat.sub_0_r.
    split_and!; [lia | done |]. unfold row_outcome. by rewrite Hsubmit. }
  rewrite ingest_eq by done. cbn [fst snd]. split_and!.
  - done.
  - destruct (failed_rows to_record put_record g 0 D) as [|f fs] eqn:Hfs.
    + by apply elem_of_nil in Hin.
    + by exists (f :: fs).
  - intros group Hcall.
    apply elem_of_submitted in Hcall as (row' & _ & [= _ Heq] & Hreach).
    unfold reaches_put in Hreach. rewrite <- Heq, Hval in Hreach.
    by rewrite bool_decide_eq_false_2 in Hreach.
Qed.

Lemma missing_identifier_never_reaches_put_witness :
  submit put_ok (customers Created) (id anonymous_row)
  = (Some (ValidationError "record identifier"), [])
  /\ (exists fs,
        (ingest id put_ok (customers Created)
                (ten_rows ++ [anonymous_row]) 3).1 = PartialIngestFailure fs
        /\ (10, ValidationError "record identifier") ∈ fs)
  /\ (forall group,
        (group, id anonymous_row)
          ∉ (ingest id put_ok (customers Created)
                    (ten_rows ++ [anonymous_row]) 3).2).
Proof.
  apply (missing_identifier_never_reaches_put id put_ok (customers Created)
           (ten_rows ++ [anonymous_row]) 3 10 anonymous_row).
  - lia.
  - reflexivity.
  - reflexivity.
Defined.

Lemma failed_rows_all_fail {Row} (to_record : Row -> record) put_record g
    (rows : list Row) :
  (forall row, is_Some (row_outcome to_record put_record g row)) ->
  forall k, (failed_rows to_record put_record g k rows).*1
            = seq k (length rows).
Proof.
  intros Hall. induction rows as [|row rows IH]; intros k; simpl; [done |].
  destruct (Hall row) as [e ->]. simpl. by rewrite IH.
Qed.

(** C7.  Against a group whose status is not Created, every submission
    fails and makes no put-record call: one Record submitted alone ends in
    an error with no call, and a batch, with any number [w >= 1] of
    workers, makes no put-record call at all and, when it has rows, fails
    with every row index among the failures.  The status Deleted is one
    such status. *)
Theorem not_created_group_is_rejected {Row} (to_record : Row -> record)
    (put_record : string -> record -> option string) g (D : list Row) w :
  1 <= w ->
  fg_status g <> Created ->
  (forall r, exists e, submit put_record g r = (Some e, []))
  /\ (ingest to_record put_record g D w).2 = []
  /\ (D <> [] ->
      exists fs,
        (ingest to_record put_record g D w).1 = PartialIngestFailure fs
        /\ fs.*1 = seq 0 (length D)).
Proof.
  intros Hw Hst.
  assert (forall r, exists e, submit put_record g r = (Some e, [])) as Hsub.
  { intros r. unfold submit. destruct (validate g r) as [e|]; [by exists e |].
    rewrite bool_decide_eq_false_2 by done. by eexists. }
  rewrite ingest_eq by done. cbn [fst snd]. split_and!.
  - done.
  - unfold submitted, reaches_put. rewrite (bool_decide_eq_false_2 _ Hst).
    induction D as [|row D IH]; [done |].
    simpl. by rewrite andb_false_r.
  - intros Hne.
    pose proof (failed_rows_all_fail to_record put_record g D) as Hall.
    specialize (Hall (fun row => ltac:(
      unfold row_outcome; destruct (Hsub (to_record row)) as [e ->];
      by eexists)) 0).
    destruct (failed_rows to_record put_record g 0 D) as [|f fs] eqn:Hfs.
    + destruct D; [done | discriminate Hall].
    + by exists (f :: fs).
Qed.

Lemma not_created_group_is_rejected_witness :
  (forall r, exists e, submit put_ok (customers Deleted) r = (Some e, []))
  /\ (ingest id put_ok (customers Deleted) ten_rows 3).2 = []
  /\ (ten_rows <> [] ->
      exists fs,
        (ingest id put_ok (customers Deleted) ten_rows 3).1
        = PartialIngestFailure fs
        /\ fs.*1 = seq 0 (length ten_rows)).
Proof.
  apply (not_created_group_is_rejected id put_ok (customers Deleted)
           ten_rows 3).
  - lia.
  - discriminate.
Defined.

(** Submitting to a group in Deleted status: every row is rejected with
    the status, and put-record is not contacted. *)
Example ten_rows_deleted_group :
  ingest id put_ok (customers Deleted) ten_rows 3
  = (PartialIngestFailure ((fun i => (i, NotCreated Deleted)) <$> seq 0 10),
     []).
Proof. by vm_compute. Qed.

End BatchIngestorTheory.

(* ===================================================================== *)
(** * More on the readiness poller and the waiting cell                   *)
(* ===================================================================== *)

Module PollerMore.
Import Poller PollerTheory Cells.

(** The events one call of the function adds when it makes [n] passes. *)
Definition run_events (fg : feature_group) (n : nat) : list event :=
  Describe :: concat (replicate n pass_events)
    ++ [Print (success_message fg)].

Lemma sleeps_app l1 l2 : sleeps (l1 ++ l2) = sleeps l1 ++ sleeps l2.
Proof. unfold sleeps. apply omap_app. Qed.

Lemma sleeps_run_events fg n : sleeps (run_events fg n) = replicate n 5%Z.
Proof.
  unfold run_events. rewrite app_comm_cons.
  change (Describe :: ?l) with ([Describe] ++ l).
  rewrite !sleeps_app, sleeps_passes. simpl. by rewrite app_nil_r.
Qed.

(** While every status the fuel lets the loop test is "Creating", the
    function has not returned. *)
Lemma check_out_of_fuel fg w fuel :
  (forall j, j <= fuel -> is_creating (status_at fg (fetches w + j)) = true) ->
  check_feature_group_status fuel fg w = None.
Proof.
  intros Hall.
  destruct (check_feature_group_status fuel fg w) as [w'|] eqn:Hrun; [|done].
  destruct (check_inv _ _ _ _ Hrun) as (n & Hn & _ & Hstop & _).
  rewrite Hall in Hstop by done. discriminate.
Qed.

(** X1.  The poller stops at the first status that is not "Creating".  When
    the statuses at the next [n] fetches are "Creating" and the one after
    them is not, the call makes [n + 1] fetches and [n] sleeps of 5, adds
    the events of [n] passes to the log and ends with the success message,
    for every fuel of at least [n]; less fuel runs out in the loop. *)
Theorem poller_stops_at_first_other_status fg w n fuel :
  (forall j, j < n -> status_at fg (fetches w + j) = Some "Creating") ->
  status_at fg (fetches w + n) <> Some "Creating" ->
  (n <= fuel ->
   exists w',
     check_feature_group_status fuel fg w = Some w'
     /\ fetches w' = fetches w + n + 1
     /\ log w' = log w ++ run_events fg n
     /\ sleeps (log w') = sleeps (log w) ++ replicate n 5%Z)
  /\ (fuel < n -> check_feature_group_status fuel fg w = None).
Proof.
  intros Hpre Hstop. split.
  - intros Hfuel. eexists. split.
    + apply (check_run fg w n); [done | |].
      * intros j Hj. apply is_creating_true. by apply Hpre.
      * by apply is_creating_false.
    + split_and!.
      * unfold print. simpl. rewrite fetches_iter_pass. simpl. lia.
      * apply log_of_run.
      * rewrite log_of_run. fold (run_events fg n).
        by rewrite sleeps_app, sleeps_run_events.
  - intros Hfuel. apply check_out_of_fuel. intros j Hj.
    apply is_creating_true, Hpre. lia.
Qed.

Lemma poller_stops_at_first_other_status_witness :
  let fg := FeatureGroup "fg" (script ["Creating"; "Creating"; "Failed"]
                                      (fun _ => ∅)) in
  (2 <= 4 ->
   exists w',
     check_feature_group_status 4 fg world0 = Some w'
     /\ fetches w' = fetches world0 + 2 + 1
     /\ log w' = log world0 ++ run_events fg 2
     /\ sleeps (log w') = sleeps (log world0) ++ replicate 2 5%Z)
  /\ (4 < 2 -> check_feature_group_status 4 fg world0 = None).
Proof.
  intros fg. apply (poller_stops_at_first_other_status fg world0 2 4).
  - intros [|[|j]] Hj; [reflexivity | reflexivity | lia].
  - vm_compute. discriminate.
Defined.

(** X2.  The poller reads nothing past the first status that is not
    "Creating": two feature groups of the same name whose statuses agree
    up to such a status get the same run, whatever comes later and
    whatever the fuel. *)
Theorem poller_reads_no_further fg1 fg2 w n :
  name fg1 = name fg2 ->
  (forall j, j <= n ->
     status_at fg1 (fetches w + j) = status_at fg2 (fetches w + j)) ->
  status_at fg1 (fetches w + n) <> Some "Creating" ->
  forall fuel,
    check_feature_group_status fuel fg1 w
    = check_feature_group_status fuel fg2 w.
Proof.
  intros Hname Hagree Hstop fuel.
  assert (success_message fg1 = success_message fg2) as Hmsg
    by (unfold success_message; by rewrite Hname).
  assert (exists m, m <= n
            /\ (forall j, j < m ->
                  is_creating (status_at fg1 (fetches w + j)) = true)
            /\ is_creating (status_at fg1 (fetches w + m)) = false)
    as (m & Hm & Hpre & Hstop').
  { destruct (first_false
                (fun j => is_creating (status_at fg1 (fetches w + j))) n)
      as [Hall|(m & Hm & Hf & Hlt)].
    - exists n. split_and!; [lia | done | by apply is_creating_false].
    - exists m. split_and!; [lia | done | done]. }
  destruct (decide (m <= fuel)) as [Hfuel|Hfuel].
  - rewrite (check_run fg1 w m fuel), (check_run fg2 w m fuel); try done.
    + by rewrite Hmsg.
    + intros j Hj. rewrite <- Hagree by lia. by apply Hpre.
    + by rewrite <- Hagree.
  - rewrite !check_out_of_fuel; [done | |].
    + intros j Hj. rewrite <- Hagree by lia. apply Hpre. lia.
    + intros j Hj. apply Hpre. lia.
Qed.

Lemma poller_reads_no_further_witness :
  check_feature_group_status 3
    (FeatureGroup "fg" (script ["Creating"; "Created"]
                               (fun _ => status_response "Deleting")))
    world0
  = check_feature_group_status 3
      (FeatureGroup "fg" (script ["Creating"; "Created"; "Failed"]
                                 (fun _ => ∅)))
      world0.
Proof.
  refine (poller_reads_no_further
            (FeatureGroup "fg" (script ["Creating"; "Created"]
                                       (fun _ => status_response "Deleting")))
            (FeatureGroup "fg" (script ["Creating"; "Created"; "Failed"]
                                       (fun _ => ∅)))
            world0 1 _ _ _ 3).
  - reflexivity.
  - intros [|[|j]] Hj; [reflexivity | reflexivity | lia].
  - vm_compute. discriminate.
Defined.

(** X3.  A response without the "FeatureGroupStatus" key ends the poll at
    once: [.get] yields [None], which is not "Creating", so the function
    makes that one fetch, does not sleep, and prints the success message,
    whatever the fuel. *)
Theorem missing_status_key_reports_success fg w fuel :
  remote fg (fetches w) !! "FeatureGroupStatus" = None ->
  check_feature_group_status fuel fg w
  = Some (World (S (fetches w))
                (log w ++ [Describe; Print (success_message fg)])).
Proof.
  intros Hmissing.
  rewrite (check_run fg w 0 fuel); [| lia | intros j Hj; lia |].
  - unfold print, first_fetch. simpl. by rewrite <- app_assoc.
  - unfold status_at. rewrite Nat.add_0_r, Hmissing. done.
Qed.

Lemma missing_status_key_reports_success_witness :
  check_feature_group_status 0 (FeatureGroup "fg" (fun _ => ∅)) world0
  = Some (World 1 [Describe; Print "FeatureGroup fg successfully created."]).
Proof.
  apply (missing_status_key_reports_success
           (FeatureGroup "fg" (fun _ => ∅)) world0 0).
  reflexivity.
Defined.

(** ** The waiting cell *)

Lemma least_stop fg w :
  (exists k, status_at fg (fetches w + k) <> Some "Creating") ->
  exists n,
    (forall j, j < n -> is_creating (status_at fg (fetches w + j)) = true)
    /\ is_creating (status_at fg (fetches w + n)) = false.
Proof.
  intros (k & Hk).
  destruct (first_false
              (fun j => is_creating (status_at fg (fetches w + j))) k)
    as [Hall|(n & Hn & Hstop & Hpre)].
  - exists k. split; [done | by apply is_creating_false].
  - by exists n.
Qed.

(** What a call that returned did, from a world with a fresh count. *)
Lemma check_fresh_inv fg log0 fuel w' :
  check_feature_group_status fuel fg (World 0 log0) = Some w' ->
  exists n,
    n <= fuel
    /\ is_creating (status_at fg n) = false
    /\ fetches w' = n + 1
    /\ log w' = log0 ++ run_events fg n.
Proof.
  intros Hrun. destruct (check_inv _ _ _ _ Hrun) as (n & Hn & _ & Hstop & ->).
  exists n. split_and!; [done | done | |].
  - unfold print. simpl. rewrite fetches_iter_pass. simpl. lia.
  - apply (log_of_run fg n (World 0 log0)).
Qed.

(** X4.  The cell waits for the customers group first and for the orders group
    after it.  It returns exactly when each of the two groups shows, at
    some fetch, a status that is not "Creating"; when it returns, the log
    holds the run on the customers group followed by the run on the orders
    group, with as many sleeps of 5 as the two runs made passes; and while
    the customers group stays "Creating" the cell never returns, whatever
    the orders group answers. *)
Theorem waiting_cell_awaits_both_in_turn customers orders log0 :
  ((exists fuel r, cell_check_status fuel customers orders log0 = Some r)
   <-> (exists k, status_at customers k <> Some "Creating")
       /\ (exists k, status_at orders k <> Some "Creating"))
  /\ (forall fuel w1 w2,
        cell_check_status fuel customers orders log0 = Some (w1, w2) ->
        exists n1 n2,
          fetches w1 = n1 + 1 /\ fetches w2 = n2 + 1
          /\ log w1 = log0 ++ run_events customers n1
          /\ log w2 = log0 ++ run_events customers n1 ++ run_events orders n2
          /\ sleeps (log w2) = sleeps log0 ++ replicate (n1 + n2) 5%Z)
  /\ ((forall k, status_at customers k = Some "Creating") ->
      forall fuel, cell_check_status fuel customers orders log0 = None).
Proof.
  split_and!.
  - split.
    + intros (fuel & r & Hcell). unfold cell_check_status in Hcell.
      destruct (check_feature_group_status fuel customers _)
        as [w1|] eqn:H1; [|done].
      destruct (check_feature_group_status fuel orders _)
        as [w2|] eqn:H2; [|done].
      destruct (check_fresh_inv _ _ _ _ H1) as (n1 & _ & Hs1 & _).
      destruct (check_fresh_inv _ _ _ _ H2) as (n2 & _ & Hs2 & _).
      split; [exists n1 | exists n2]; by apply is_creating_false.
    + intros [Hc Ho].
      destruct (least_stop customers (World 0 log0) Hc) as (n1 & Hpre1 & Hs1).
      destruct (least_stop orders (World 0 log0) Ho) as (n2 & Hpre2 & Hs2).
      exists (n1 `max` n2). unfold cell_check_status.
      rewrite (check_run customers (World 0 log0) n1) by (done || lia).
      eexists. by rewrite (check_run orders (World 0 _) n2) by (done || lia).
  - intros fuel w1 w2 Hcell. unfold cell_check_status in Hcell.
    destruct (check_feature_group_status fuel customers _)
      as [w1'|] eqn:H1; [|done].
    destruct (check_feature_group_status fuel orders _)
      as [w2'|] eqn:H2; [|done].
    injection Hcell as -> ->.
    destruct (check_fresh_inv _ _ _ _ H1) as (n1 & _ & _ & Hf1 & Hl1).
    destruct (check_fresh_inv _ _ _ _ H2) as (n2 & _ & _ & Hf2 & Hl2).
    exists n1, n2. rewrite Hl1 in Hl2. rewrite <- app_assoc in Hl2.
    split_and!; try done.
    rewrite Hl2, !sleeps_app, !sleeps_run_events. by rewrite <- replicate_add.
  - intros Hall fuel. unfold cell_check_status.
    rewrite check_out_of_fuel; [done |].
    intros j _. apply is_creating_true. simpl. apply Hall.
Qed.

End PollerMore.

(* ===================================================================== *)
(** * The names of the feature groups                                     *)
(* ===================================================================== *)

Module NamesTheory.
Import Stdlib.Strings.Ascii.
Import Cells.

(** The suffix both names end in. *)
Definition suffix (t : struct_time) : string :=
  two_digits (tm_mday t) +:+ "-" +:+ two_digits (tm_hour t) +:+ "-"
    +:+ two_digits (tm_min t) +:+ "-" +:+ two_digits (tm_sec t).

Lemma strftime_day_time t : strftime "%d-%H-%M-%S" t = Some (suffix t).
Proof. reflexivity. Qed.

Lemma digit_inj d1 d2 : d1 < 10 -> d2 < 10 -> digit d1 = digit d2 -> d1 = d2.
Proof.
  intros H1 H2 Heq. unfold digit in Heq.
  apply (f_equal nat_of_ascii) in Heq.
  rewrite !nat_ascii_embedding in Heq by lia. lia.
Qed.

Lemma two_digits_inj n1 n2 :
  n1 < 100 -> n2 < 100 -> two_digits n1 = two_digits n2 -> n1 = n2.
Proof.
  intros H1 H2 Heq. unfold two_digits in Heq.
  assert (digit (n1 / 10) = digit (n2 / 10)) as Ht by congruence.
  assert (digit (n1 mod 10) = digit (n2 mod 10)) as Hu by congruence.
  apply digit_inj in Ht; [| apply Nat.Div0.div_lt_upper_bound; lia..].
  apply digit_inj in Hu; [| apply Nat.mod_upper_bound; lia..].
  rewrite (Nat.div_mod_eq n1 10), (Nat.div_mod_eq n2 10). lia.
Qed.

Lemma suffix_chars t :
  suffix t
  = String (digit (tm_mday t / 10)) (String (digit (tm_mday t mod 10))
      (String "-" (String (digit (tm_hour t / 10))
         (String (digit (tm_hour t mod 10))
            (String "-" (String (digit (tm_min t / 10))
               (String (digit (tm_min t mod 10))
                  (String "-" (String (digit (tm_sec t / 10))
                     (String (digit (tm_sec t mod 10)) EmptyString)))))))))).
Proof. reflexivity. Qed.

Lemma suffix_inj t1 t2 :
  in_range t1 -> in_range t2 ->
  suffix t1 = suffix t2 ->
  tm_mday t1 = tm_mday t2 /\ tm_hour t1 = tm_hour t2
  /\ tm_min t1 = tm_min t2 /\ tm_sec t1 = tm_sec t2.
Proof.
  intros (_ & Hd1 & Hh1 & Hm1 & Hs1) (_ & Hd2 & Hh2 & Hm2 & Hs2) Heq.
  rewrite !suffix_chars in Heq.
  split_and!; apply two_digits_inj; try lia; unfold two_digits; congruence.
Qed.

Lemma append_cancel p a b : p +:+ a = p +:+ b -> a = b.
Proof.
  induction p as [|c p IH]; [done |].
  change (String c p +:+ a) with (String c (p +:+ a)).
  change (String c p +:+ b) with (String c (p +:+ b)).
  intros Heq. apply IH. by injection Heq.
Qed.

(** Two readings of the clock agree on what the names show. *)
Definition same_day_and_time (t1 t2 : struct_time) : Prop :=
  tm_mday t1 = tm_mday t2 /\ tm_hour t1 = tm_hour t2
  /\ tm_min t1 = tm_min t2 /\ tm_sec t1 = tm_sec t2.

(** X8.  The name of a feature group tells the day of the month, the hour, the
    minute and the second it was made at, and nothing else about the
    time: two customers names (and two orders names) are equal exactly
    when these four agree, whatever the months and the years.  A customers
    name has 35 characters, an orders name 32, and a customers name is
    never an orders name. *)
Theorem names_tell_day_and_time t1 t2 :
  in_range t1 -> in_range t2 ->
  (customers_feature_group_name t1 = customers_feature_group_name t2
   <-> same_day_and_time t1 t2)
  /\ (orders_feature_group_name t1 = orders_feature_group_name t2
      <-> same_day_and_time t1 t2)
  /\ customers_feature_group_name t1 <> orders_feature_group_name t2
  /\ (exists c o,
        customers_feature_group_name t1 = Some c
        /\ orders_feature_group_name t1 = Some o
        /\ String.length c = 35 /\ String.length o = 32).
Proof.
  intros Hr1 Hr2.
  unfold customers_feature_group_name, orders_feature_group_name.
  rewrite !strftime_day_time. cbn [fmap option_fmap option_map].
  assert (same_day_and_time t1 t2 -> suffix t1 = suffix t2) as Hsame.
  { intros (Hd & Hh & Hm & Hs). unfold suffix. by rewrite Hd, Hh, Hm, Hs. }
  split_and!.
  - split; [| by intros ->%Hsame].
    intros Heq. apply suffix_inj; [done | done |].
    apply (inj Some) in Heq. by apply append_cancel in Heq.
  - split; [| by intros ->%Hsame].
    intros Heq. apply suffix_inj; [done | done |].
    apply (inj Some) in Heq. by apply append_cancel in Heq.
  - intros Heq. apply (inj Some) in Heq. discriminate Heq.
  - eexists _, _. split_and!; [done | done | |].
    + rewrite suffix_chars. reflexivity.
    + rewrite suffix_chars. reflexivity.
Qed.

Lemma names_tell_day_and_time_witness :
  let t1 := mkTime 2020 10 30 14 5 9 4 304 0 in
  let t2 := mkTime 2020 11 30 14 5 9 0 335 0 in
  (customers_feature_group_name t1 = customers_feature_group_name t2
   <-> same_day_and_time t1 t2)
  /\ (orders_feature_group_name t1 = orders_feature_group_name t2
      <-> same_day_and_time t1 t2)
  /\ customers_feature_group_name t1 <> orders_feature_group_name t2
  /\ (exists c o,
        customers_feature_group_name t1 = Some c
        /\ orders_feature_group_name t1 = Some o
        /\ String.length c = 35 /\ String.length o = 32).
Proof.
  intros t1 t2. apply (names_tell_day_and_time t1 t2).
  - unfold in_range. simpl. lia.
  - unfold in_range. simpl. lia.
Defined.

End NamesTheory.

(* ===================================================================== *)
(** * More on the event-time column                                       *)
(* ===================================================================== *)

Module FrameMore.
Import Frame FrameTheory.

(** ** Running the append again *)

Lemma index_append t df : index (append_event_time t df) = index df.
Proof. rewrite append_event_time_eq. cbv zeta. by case_bool_decide. Qed.

Lemma len_append t df : len (append_event_time t df) = len df.
Proof. unfold len. by rewrite index_append. Qed.

(** Replacing the columns named "EventTime". *)
Definition restamp (vals : list value) (c : string * list value)
  : string * list value :=
  if bool_decide (c.1 = "EventTime") then ("EventTime", vals) else c.

Lemma restamp_others vals (cols : list (string * list value)) :
  "EventTime" ∉ cols.*1 -> restamp vals <$> cols = cols.
Proof.
  induction cols as [|c cols IH]; intros Hnin; [done |].
  rewrite fmap_cons in Hnin. apply not_elem_of_cons in Hnin as [Hne Hnin].
  rewrite fmap_cons, IH by done. unfold restamp.
  by rewrite bool_decide_eq_false_2 by congruence.
Qed.

Lemma restamp_twice vals1 vals2 (cols : list (string * list value)) :
  restamp vals2 <$> (restamp vals1 <$> cols) = restamp vals2 <$> cols.
Proof.
  rewrite <- list_fmap_compose. apply list_fmap_ext. intros _ c _.
  destruct c as [nm vs]. unfold restamp. simpl.
  repeat (case_bool_decide; simpl in *); done.
Qed.

Lemma restamp_names vals (cols : list (string * list value)) :
  (restamp vals <$> cols).*1 = cols.*1.
Proof.
  rewrite <- list_fmap_compose. apply list_fmap_ext. intros _ c _.
  unfold restamp. simpl. by case_bool_decide.
Qed.

(** X5.  Running the append a second time, with the same or another time,
    adds no second column: the frame is the one a single append with the
    later time gives.  So the cell can be run again, and the last run
    wins. *)
Theorem append_again_overwrites t1 t2 df :
  append_event_time t2 (append_event_time t1 df) = append_event_time t2 df.
Proof.
  rewrite (append_event_time_eq t2 (append_event_time t1 df)).
  rewrite len_append, index_append. rewrite (append_event_time_eq t2 df).
  cbv zeta.
  set (vals2 := reindex (Series_float64 (replicate (len df) t2)) (index df)).
  rewrite (append_event_time_eq t1 df). cbv zeta.
  set (vals1 := reindex (Series_float64 (replicate (len df) t1)) (index df)).
  fold (restamp vals1) (restamp vals2).
  destruct (decide ("EventTime" ∈ column_names df)) as [Hin|Hnin].
  - rewrite !(bool_decide_eq_true_2 _ Hin). unfold column_names. simpl.
    rewrite restamp_names. fold (column_names df).
    rewrite (bool_decide_eq_true_2 _ Hin). simpl. by rewrite restamp_twice.
  - rewrite !(bool_decide_eq_false_2 _ Hnin). unfold column_names. simpl.
    rewrite fmap_app. simpl.
    rewrite bool_decide_eq_true_2 by (apply elem_of_app; right; by left).
    simpl. rewrite fmap_app, restamp_others by done. simpl.
    unfold restamp at 1. simpl. done.
Qed.

(** ** The shape of the frame *)

(** Every column has one value per row. *)
Definition rectangular (df : DataFrame) : Prop :=
  forall c, c ∈ columns df -> length c.2 = len df.

(** X6.  The append keeps the frame rectangular and the number of its rows:
    whether the column is added or overwritten, it gets one value per
    row, and the other columns keep theirs. *)
Theorem append_keeps_rectangular t df :
  rectangular df ->
  rectangular (append_event_time t df)
  /\ len (append_event_time t df) = len df.
Proof.
  intros Hrect. split; [| apply len_append].
  intros c Hc. rewrite len_append. rewrite append_event_time_eq in Hc.
  cbv zeta in Hc. case_bool_decide; simpl in Hc.
  - apply list_elem_of_fmap in Hc as (c0 & -> & Hc0).
    case_bool_decide; simpl; [by rewrite length_reindex | by apply Hrect].
  - apply elem_of_app in Hc as [Hc|Hc]; [by apply Hrect |].
    apply list_elem_of_singleton in Hc as ->. simpl. by rewrite length_reindex.
Qed.

Lemma append_keeps_rectangular_witness :
  rectangular (append_event_time 1604016000 stamped_before)
  /\ len (append_event_time 1604016000 stamped_before) = len stamped_before.
Proof.
  apply (append_keeps_rectangular 1604016000 stamped_before).
  intros c Hc. vm_compute in Hc.
  repeat (apply elem_of_cons in Hc as [->|Hc]; [reflexivity |]).
  by apply elem_of_nil in Hc.
Defined.

End FrameMore.
